(** * Trabalho-api-pokemon: the Pokémon service over its Prisma store

    A shallow embedding of [src/services/pokemon.service.ts].  The service
    is a class of static async methods that talk to a relational store
    through the Prisma client.  Here the store is an explicit value, every
    method is a function in a state-and-error monad, and
    [prisma.$transaction] is a combinator that restores the tables when
    its body throws.  The request validation middleware of
    [src/middleware/validation.ts] follows the service. *)

From Stdlib Require Import ZArith String Ascii Lia.
From stdpp Require Import base option list strings gmap fin_sets sorting pretty.

Local Open Scope Z_scope.
Set Warnings "-clear-no-such-hyp".

(** ** JavaScript helpers used by the service *)

Module JS.

(** Code units that [parseInt] skips at the start of its argument
    (the [StrWhiteSpaceChar] below U+0100). *)
Definition is_white_space (c : ascii) : bool :=
  let n := N_of_ascii c in
  ((9 <=? n) && (n <=? 13) || (n =? 32) || (n =? 160))%N.

Fixpoint trim_start (s : string) : string :=
  match s with
  | String c s' => if is_white_space c then trim_start s' else s
  | EmptyString => s
  end.

(** The value of a code unit as a digit, for radices up to 36. *)
Definition digit_of (c : ascii) : option Z :=
  let n := Z.of_N (N_of_ascii c) in
  if (48 <=? n) && (n <=? 57) then Some (n - 48)
  else if (97 <=? n) && (n <=? 122) then Some (n - 87)
  else if (65 <=? n) && (n <=? 90) then Some (n - 55)
  else None.

(** Reads the longest prefix of radix-[R] digits; [acc] is [None] as long
    as no digit was read. *)
Fixpoint digits (R : Z) (s : string) (acc : option Z) : option Z :=
  match s with
  | String c s' =>
      match digit_of c with
      | Some d =>
          if d <? R
          then digits R s' (Some (default 0 acc * R + d))
          else acc
      | None => acc
      end
  | EmptyString => acc
  end.

Definition strip_sign (s : string) : Z * string :=
  match s with
  | String "-" s' => (-1, s')
  | String "+" s' => (1, s')
  | _ => (1, s)
  end.

Definition strip_prefix (s : string) : Z * string :=
  match s with
  | String "0" (String "x" s') => (16, s')
  | String "0" (String "X" s') => (16, s')
  | _ => (10, s)
  end.

(** [parseInt(s)] with no radix argument; [None] is [NaN].  The result
    is the mathematical integer (exact for every safe integer). *)
Definition parseInt (s : string) : option Z :=
  let '(sign, s1) := strip_sign (trim_start s) in
  let '(R, s2) := strip_prefix s1 in
  (λ n, sign * n) <$> digits R s2 None.

(** Truthiness of an optional string property: [undefined] and the
    empty string are falsy. *)
Definition truthy_string (o : option string) : bool :=
  match o with
  | Some (String _ _) => true
  | _ => false
  end.

(** Truthiness of an optional integer property: [undefined] and [0]
    are falsy. *)
Definition truthy_number (o : option Z) : bool :=
  match o with
  | Some n => negb (n =? 0)
  | None => false
  end.

(** [o || null] on an optional string and on an optional number. *)
Definition string_or_null (o : option string) : option string :=
  if truthy_string o then o else None.

Definition number_or_null (o : option Z) : option Z :=
  if truthy_number o then o else None.

(** A JavaScript number as far as [findMany] needs it: an integer, or
    what a division by zero leaves. *)
Inductive number : Type :=
| Num (n : Z)
| Infinity
| NaN.

(** [Math.ceil(a / b)] for integers [a] and [b] with [0 <= a]. *)
Definition ceil_div (a b : Z) : number :=
  if b =? 0 then (if a =? 0 then NaN else Infinity)
  else Num (- ((- a) / b)).

Definition to_lower (c : ascii) : ascii :=
  let n := N_of_ascii c in
  if ((65 <=? n) && (n <=? 90))%N then ascii_of_N (n + 32) else c.

Fixpoint lower (s : string) : string :=
  match s with
  | String c s' => String (to_lower c) (lower s')
  | EmptyString => EmptyString
  end.

Fixpoint contains (needle hay : string) : bool :=
  String.prefix needle hay ||
  match hay with
  | String _ hay' => contains needle hay'
  | EmptyString => false
  end.

(** [{ contains: needle, mode: "insensitive" }]. *)
Definition contains_insensitive (needle hay : string) : bool :=
  contains (lower needle) (lower hay).

End JS.

(** ** Data model *)

(** Modelled from the spec: the schema of the store (the Prisma schema) is
    not among the sources.  The columns are those the service writes in
    [create]; the optional attributes are numbers and strings, the four
    base stats integers.

    A row of the [pokemon] table, without its primary key [id], which is
    the key of the table. *)
Record Pokemon : Type := mkPokemon {
  name : string;
  height : option Z;
  weight : option Z;
  description : option string;
  imageUrl : option string;
  baseHp : Z;
  baseAttack : Z;
  baseDefense : Z;
  baseSpeed : Z;
}.

(** A row of the join table [pokemonType] is the pair
    [(pokemonId, typeId)].  The service selects single rows by
    [pokemonId_typeId], the compound unique key of the table, so the table
    is a set of pairs. *)
Abbreviation PokemonType := (Z * Z)%type (only parsing).

Definition pokemonId (r : PokemonType) : Z := r.1.
Definition typeId (r : PokemonType) : Z := r.2.

(** Modelled from the spec: the schema of the store is not among the
    sources.  Entity ids are unique and assigned by the storage, names are
    unique ([findUnique] selects by [name]), and the pairs of the join
    table are unique.

    The store behind the Prisma client.  [type] maps a type id to the
    type's name; [pokemon_id_seq] is the sequence that assigns the next
    pokemon id. *)
Record Store : Type := mkStore {
  pokemon : gmap Z Pokemon;
  type : gmap Z string;
  pokemonType : gset (Z * Z);
  pokemon_id_seq : Z;
}.

(** The read model: a pokemon with [include: { PokemonType: { include:
    { type: true } } }]. *)
Record PokemonWithTypes : Type := mkPokemonWithTypes {
  pw_id : Z;
  pw_pokemon : Pokemon;
  pw_PokemonType : list (Z * Z * option string);
}.

(** Modelled from the spec: [../schemas/pokemon.js], which declares the
    three input types, is not among the sources; the properties are those
    the service reads.

    [CreatePokemonInput]: the type references arrive as strings, which the
    service reads with [parseInt]. *)
Record CreatePokemonInput : Type := mkCreatePokemonInput {
  c_name : string;
  c_height : option Z;
  c_weight : option Z;
  c_description : option string;
  c_imageUrl : option string;
  c_baseHp : Z;
  c_baseAttack : Z;
  c_baseDefense : Z;
  c_baseSpeed : Z;
  c_primaryTypeId : string;
  c_secondaryTypeId : option string;
}.

(** [UpdatePokemonInput]: every property is optional ([None] is
    [undefined]); a nullable column can also be set to [null]
    ([Some None]). *)
Record UpdatePokemonInput : Type := mkUpdatePokemonInput {
  u_name : option string;
  u_height : option (option Z);
  u_weight : option (option Z);
  u_description : option (option string);
  u_imageUrl : option (option string);
  u_baseHp : option Z;
  u_baseAttack : option Z;
  u_baseDefense : option Z;
  u_baseSpeed : option Z;
  u_primaryTypeId : option string;
  u_secondaryTypeId : option string;
}.

(** [Partial<PokemonQuery>]. *)
Record PokemonQuery : Type := mkPokemonQuery {
  q_page : option Z;
  q_limit : option Z;
  q_search : option string;
  q_typeId : option string;
}.

Record Pagination : Type := mkPagination {
  page : Z;
  limit : Z;
  total : Z;
  totalPages : JS.number;
  hasNext : bool;
  hasPrev : bool;
}.

Record Page : Type := mkPage {
  data : list PokemonWithTypes;
  pagination : Pagination;
}.

(** ** Errors *)

(** The unique constraints of the schema. *)
Inductive Constraint : Type :=
| Pokemon_id
| Pokemon_name
| PokemonType_pokemonId_typeId.

(** What a method can throw: the [Error]s the service creates, named
    after their messages, and the errors of the Prisma client. *)
Inductive Error : Type :=
| PokemonNaoEncontrado            (* "Pokémon não encontrado" *)
| JaExistePokemonComNome (n : string)
                                  (* "Já existe um pokémon com o nome ..." *)
| TipoPrimarioNaoEncontrado       (* "Tipo primário não encontrado" *)
| TipoSecundarioNaoEncontrado     (* "Tipo secundário não encontrado" *)
| TipoNaoEncontrado               (* "Tipo não encontrado" *)
| PokemonJaPossuiEsteTipo         (* "Este pokémon já possui este tipo" *)
| MaximoDoisTipos                 (* "Um pokémon pode ter no máximo 2 tipos" *)
| MinimoUmTipo                    (* "Um pokémon deve ter pelo menos 1 tipo" *)
| P2002 (target : Constraint)     (* unique constraint failed *)
| P2003                           (* foreign key constraint failed *)
| P2025                           (* record to update or delete not found *)
| PrismaClientValidationError.    (* an argument of the wrong type, as NaN *)

(** The failure kinds of the specification's error taxonomy.  The source
    has no such type: it throws plain [Error] objects, told apart by
    their messages, and lets the errors of the Prisma client through. *)
Inductive Kind : Type :=
| NotFound
| Conflict
| InvariantViolation
| ValidationFailure
| Internal.

(** The kind under which each error falls: the service's own errors by
    what their message reports, the errors of the storage layer as
    internal ones. *)
Definition kind_of (e : Error) : Kind :=
  match e with
  | PokemonNaoEncontrado | TipoPrimarioNaoEncontrado
  | TipoSecundarioNaoEncontrado | TipoNaoEncontrado => NotFound
  | JaExistePokemonComNome _ | PokemonJaPossuiEsteTipo => Conflict
  | MaximoDoisTipos | MinimoUmTipo => InvariantViolation
  | P2002 _ | P2003 | P2025 | PrismaClientValidationError => Internal
  end.

(** ** The monad of the service: state and exceptions *)

Inductive Result (A : Type) : Type :=
| Ok (a : A)
| Err (e : Error).
Arguments Ok {A} a.
Arguments Err {A} e.

Definition M (A : Type) : Type := Store → Result A * Store.

Definition ret {A} (a : A) : M A := λ s, (Ok a, s).

Definition bind {A B} (m : M A) (k : A → M B) : M B :=
  λ s, match m s with
       | (Ok a, s') => k a s'
       | (Err e, s') => (Err e, s')
       end.

Definition throw {A} (e : Error) : M A := λ s, (Err e, s).

Definition gets {A} (f : Store → A) : M A := λ s, (Ok (f s), s).

Definition modify (f : Store → Store) : M unit := λ s, (Ok tt, f s).

Declare Scope M_scope.
Delimit Scope M_scope with M.
Notation "x <- m ;; k" := (bind m (λ x, k))
  (at level 100, m at next level, right associativity) : M_scope.
Notation "'await' m ;; k" := (bind m (λ _, k))
  (at level 100, m at next level, right associativity) : M_scope.
Local Open Scope M_scope.

(** [if (c) throw e]. *)
Definition throw_if (c : bool) (e : Error) : M unit :=
  if c then throw e else ret tt.

(** [if (c) { body }]. *)
Definition when (c : bool) (body : M unit) : M unit :=
  if c then body else ret tt.

(** ** The Prisma client *)

(** Modelled from the spec: [../lib/prisma.js], which creates the client,
    and the schema are not among the sources.  The operations below are
    the calls the service makes on the client, with the behaviour of the
    Prisma client on a relational store: [findUnique] returns [null] for a
    missing record, [create] and [update] throw [P2002] on a unique
    constraint and [P2003] on a foreign key, [update] and [delete] throw
    [P2025] for a missing record, and a transaction that throws is rolled
    back. *)

Module Prisma.

Definition set_pokemon (f : gmap Z Pokemon → gmap Z Pokemon) (s : Store) : Store :=
  mkStore (f (pokemon s)) (type s) (pokemonType s) (pokemon_id_seq s).

Definition set_pokemonType (f : gset (Z * Z) → gset (Z * Z)) (s : Store) : Store :=
  mkStore (pokemon s) (type s) (f (pokemonType s)) (pokemon_id_seq s).

Definition set_pokemon_id_seq (n : Z) (s : Store) : Store :=
  mkStore (pokemon s) (type s) (pokemonType s) n.

(** The rows of the join table that belong to one pokemon. *)
Definition types_of (pid : Z) (rows : gset (Z * Z)) : gset (Z * Z) :=
  filter (λ r, pokemonId r = pid) rows.

(** The pokemon that owns a name, through the unique index on [name]. *)
Definition find_by_name (nm : string) (ps : gmap Z Pokemon) : option (Z * Pokemon) :=
  head (filter (λ kv, name kv.2 = nm) (map_to_list ps)).

(** [include: { PokemonType: { include: { type: true } } }]. *)
Definition hydrate (s : Store) (kv : Z * Pokemon) : PokemonWithTypes :=
  mkPokemonWithTypes kv.1 kv.2
    ((λ r, (r, type s !! typeId r)) <$> elements (types_of kv.1 (pokemonType s))).

(** [prisma.pokemon.findUnique({ where: { id }, include })]. *)
Definition pokemon_findUnique_include (id : Z) : M (option PokemonWithTypes) :=
  gets (λ s, (λ p, hydrate s (id, p)) <$> pokemon s !! id).

(** [prisma.pokemon.findUnique({ where: { name } })]. *)
Definition pokemon_findUnique_name (nm : string) : M (option (Z * Pokemon)) :=
  gets (λ s, find_by_name nm (pokemon s)).

(** [prisma.type.findUnique({ where: { id } })]; the id is the result of
    a [parseInt] where the caller has a string, and [NaN] is not a
    value of an integer column. *)
Definition type_findUnique (id : option Z) : M (option string) :=
  match id with
  | Some i => gets (λ s, type s !! i)
  | None => throw PrismaClientValidationError
  end.

(** [prisma.pokemonType.findUnique({ where: { pokemonId_typeId } })]. *)
Definition pokemonType_findUnique (pid tid : Z) : M (option (Z * Z)) :=
  gets (λ s, if decide ((pid, tid) ∈ pokemonType s) then Some (pid, tid) else None).

(** [prisma.pokemonType.count({ where: { pokemonId } })]. *)
Definition pokemonType_count (pid : Z) : M Z :=
  gets (λ s, Z.of_nat (size (types_of pid (pokemonType s)))).

(** [tx.pokemon.create({ data })]: the sequence assigns the id, and the
    unique indexes on [name] and on [id] guard the insertion. *)
Definition pokemon_create (row : Pokemon) : M (Z * Pokemon) :=
  λ s,
    let id := pokemon_id_seq s in
    let s1 := set_pokemon_id_seq (id + 1) s in
    if find_by_name (name row) (pokemon s) is Some _
    then (Err (P2002 Pokemon_name), s1)
    else if pokemon s !! id is Some _
    then (Err (P2002 Pokemon_id), s1)
    else (Ok (id, row), set_pokemon (insert id row) s1).

(** [tx.pokemon.update({ where: { id }, data })], with the new row
    already computed from [data]. *)
Definition pokemon_update (id : Z) (change : Pokemon → Pokemon) : M (Z * Pokemon) :=
  λ s,
    match pokemon s !! id with
    | None => (Err P2025, s)
    | Some old =>
        let new := change old in
        if find_by_name (name new) (delete id (pokemon s)) is Some _
        then (Err (P2002 Pokemon_name), s)
        else (Ok (id, new), set_pokemon (insert id new) s)
    end.

(** [tx.pokemon.delete({ where: { id } })]; rows of the join table that
    still refer to the pokemon block the deletion. *)
Definition pokemon_delete (id : Z) : M unit :=
  λ s,
    match pokemon s !! id with
    | None => (Err P2025, s)
    | Some _ =>
        if decide (types_of id (pokemonType s) = ∅)
        then (Ok tt, set_pokemon (delete id) s)
        else (Err P2003, s)
    end.

(** [pokemonType.create({ data: { pokemonId, typeId } })]: the compound
    unique key rejects a pair that is already there, the foreign keys a
    pair that refers to a missing row. *)
Definition pokemonType_create (pid : Z) (tid : option Z) : M (Z * Z) :=
  λ s,
    match tid with
    | None => (Err PrismaClientValidationError, s)
    | Some t =>
        if decide ((pid, t) ∈ pokemonType s)
        then (Err (P2002 PokemonType_pokemonId_typeId), s)
        else if pokemon s !! pid is None then (Err P2003, s)
        else if type s !! t is None then (Err P2003, s)
        else (Ok (pid, t), set_pokemonType (λ rows, {[ (pid, t) ]} ∪ rows) s)
    end.

(** [tx.pokemonType.deleteMany({ where: { pokemonId } })]. *)
Definition pokemonType_deleteMany (pid : Z) : M unit :=
  modify (set_pokemonType (filter (λ r, pokemonId r ≠ pid))).

(** [prisma.pokemonType.delete({ where: { pokemonId_typeId } })]: throws
    when the record to delete does not exist. *)
Definition pokemonType_delete (pid tid : Z) : M (Z * Z) :=
  λ s,
    if decide ((pid, tid) ∈ pokemonType s)
    then (Ok (pid, tid), set_pokemonType (λ rows, rows ∖ {[ (pid, tid) ]}) s)
    else (Err P2025, s).

(** What a rolled back transaction leaves: the tables as they were
    before it; the values drawn from the sequence stay drawn. *)
Definition rollback (before after : Store) : Store :=
  set_pokemon_id_seq (pokemon_id_seq after) before.

(** [prisma.$transaction(async (tx) => body)]. *)
Definition transaction {A} (body : M A) : M A :=
  λ s,
    match body s with
    | (Ok a, s') => (Ok a, s')
    | (Err e, s') => (Err e, rollback s s')
    end.

(** The [where] object of [findMany]: the optional [name.contains] and
    the optional [PokemonType.some.typeId]. *)
Record Where : Type := mkWhere {
  where_name_contains : option string;
  where_PokemonType_some_typeId : option (option Z);
}.

Definition matches (s : Store) (w : Where) (kv : Z * Pokemon) : bool :=
  match where_name_contains w with
  | Some needle => JS.contains_insensitive needle (name kv.2)
  | None => true
  end &&
  match where_PokemonType_some_typeId w with
  | Some (Some t) => bool_decide ((kv.1, t) ∈ pokemonType s)
  | _ => true
  end.

(** The order of [orderBy: { id: "asc" }]. *)
Definition id_asc (a b : Z * Pokemon) : Prop := a.1 ≤ b.1.

#[export] Instance id_asc_dec : RelDecision id_asc.
Proof. intros a b. unfold id_asc. apply _. Defined.

(** The rows that satisfy [where], ordered by id. *)
Definition ordered_matches (s : Store) (w : Where) : list (Z * Pokemon) :=
  merge_sort id_asc
    (filter (λ kv, matches s w kv = true) (map_to_list (pokemon s))).

(** [skip] and [take]: a negative [skip] is refused; a negative [take]
    counts from the end of the ordered rows. *)
Definition window {A} (skip take : Z) (rows : list A) : list A :=
  if 0 <=? take
  then list.take (Z.to_nat take) (drop (Z.to_nat skip) rows)
  else reverse (list.take (Z.to_nat (- take)) (drop (Z.to_nat skip) (reverse rows))).

(** [prisma.pokemon.findMany({ where, include, orderBy, skip, take })]. *)
Definition pokemon_findMany (w : Where) (skip take : Z) : M (list PokemonWithTypes) :=
  if decide (where_PokemonType_some_typeId w = Some None)
  then throw PrismaClientValidationError
  else if skip <? 0 then throw PrismaClientValidationError
  else gets (λ s, hydrate s <$> window skip take (ordered_matches s w)).

(** [prisma.pokemon.count({ where })]. *)
Definition pokemon_count (w : Where) : M Z :=
  if decide (where_PokemonType_some_typeId w = Some None)
  then throw PrismaClientValidationError
  else gets (λ s, Z.of_nat (length (ordered_matches s w))).

End Prisma.

(** ** The service *)

Module PokemonService.

(** [parseInt] of an optional property; [parseInt(undefined)] is [NaN]. *)
Definition parseInt (o : option string) : option Z := o ≫= JS.parseInt.

Definition where_of (filters : PokemonQuery) : Prisma.Where :=
  Prisma.mkWhere
    (if JS.truthy_string (q_search filters) then q_search filters else None)
    (if JS.truthy_string (q_typeId filters)
     then Some (parseInt (q_typeId filters)) else None).

Definition findMany (filters : PokemonQuery) : M Page :=
  let page := default 1 (q_page filters) in
  let limit := default 10 (q_limit filters) in
  let skip := (page - 1) * limit in
  let where_ := where_of filters in
  pokemons <- Prisma.pokemon_findMany where_ skip limit ;;
  total <- Prisma.pokemon_count where_ ;;
  ret (mkPage pokemons
         (mkPagination page limit total
            (JS.ceil_div total limit)
            (page * limit <? total)
            (1 <? page))).

Definition findById (id : Z) : M PokemonWithTypes :=
  pokemon <- Prisma.pokemon_findUnique_include id ;;
  match pokemon with
  | None => throw PokemonNaoEncontrado
  | Some p => ret p
  end.

Definition create (data : CreatePokemonInput) : M PokemonWithTypes :=
  existingByName <- Prisma.pokemon_findUnique_name (c_name data) ;;
  await throw_if (bool_decide (is_Some existingByName))
          (JaExistePokemonComNome (c_name data)) ;;
  primaryType <- Prisma.type_findUnique (JS.parseInt (c_primaryTypeId data)) ;;
  await throw_if (bool_decide (primaryType = None)) TipoPrimarioNaoEncontrado ;;
  await when (JS.truthy_string (c_secondaryTypeId data))
          (secondaryType <- Prisma.type_findUnique (parseInt (c_secondaryTypeId data)) ;;
           throw_if (bool_decide (secondaryType = None)) TipoSecundarioNaoEncontrado) ;;
  pokemon <- Prisma.transaction
    (newPokemon <- Prisma.pokemon_create
        {| name := c_name data;
           height := JS.number_or_null (c_height data);
           weight := JS.number_or_null (c_weight data);
           description := JS.string_or_null (c_description data);
           imageUrl := JS.string_or_null (c_imageUrl data);
           baseHp := c_baseHp data;
           baseAttack := c_baseAttack data;
           baseDefense := c_baseDefense data;
           baseSpeed := c_baseSpeed data |} ;;
     await Prisma.pokemonType_create newPokemon.1
             (JS.parseInt (c_primaryTypeId data)) ;;
     await when (JS.truthy_string (c_secondaryTypeId data))
             (await Prisma.pokemonType_create newPokemon.1
                      (parseInt (c_secondaryTypeId data)) ;;
              ret tt) ;;
     ret newPokemon) ;;
  findById pokemon.1.

(** The [updateData] object applied to the current row: only the keys
    that are not [undefined] are written. *)
Definition updateData (data : UpdatePokemonInput) (old : Pokemon) : Pokemon :=
  {| name := default (name old) (u_name data);
     height := default (height old) (u_height data);
     weight := default (weight old) (u_weight data);
     description := default (description old) (u_description data);
     imageUrl := default (imageUrl old) (u_imageUrl data);
     baseHp := default (baseHp old) (u_baseHp data);
     baseAttack := default (baseAttack old) (u_baseAttack data);
     baseDefense := default (baseDefense old) (u_baseDefense data);
     baseSpeed := default (baseSpeed old) (u_baseSpeed data) |}.

(** [existingByName && existingByName.id !== id]. *)
Definition owned_by_other (existingByName : option (Z * Pokemon)) (id : Z) : bool :=
  match existingByName with
  | Some kv => negb (kv.1 =? id)
  | None => false
  end.

Definition update (id : Z) (data : UpdatePokemonInput) : M PokemonWithTypes :=
  await findById id ;;
  await match u_name data with
        | Some (String _ _ as nm) =>
            existingByName <- Prisma.pokemon_findUnique_name nm ;;
            throw_if (owned_by_other existingByName id) (JaExistePokemonComNome nm)
        | _ => ret tt
        end ;;
  pokemon <- Prisma.transaction
    (updatedPokemon <- Prisma.pokemon_update id (updateData data) ;;
     await when (JS.truthy_string (u_primaryTypeId data)
                 || JS.truthy_string (u_secondaryTypeId data))
             (await Prisma.pokemonType_deleteMany id ;;
              await when (JS.truthy_string (u_primaryTypeId data))
                      (primaryType <- Prisma.type_findUnique (parseInt (u_primaryTypeId data)) ;;
                       await throw_if (bool_decide (primaryType = None))
                               TipoPrimarioNaoEncontrado ;;
                       await Prisma.pokemonType_create id (parseInt (u_primaryTypeId data)) ;;
                       ret tt) ;;
              when (JS.truthy_string (u_secondaryTypeId data))
                (secondaryType <- Prisma.type_findUnique (parseInt (u_secondaryTypeId data)) ;;
                 await throw_if (bool_decide (secondaryType = None))
                         TipoSecundarioNaoEncontrado ;;
                 await Prisma.pokemonType_create id (parseInt (u_secondaryTypeId data)) ;;
                 ret tt)) ;;
     ret updatedPokemon) ;;
  findById pokemon.1.

(** Returns the acknowledgement [{ message }]. *)
Definition delete (id : Z) : M unit :=
  await findById id ;;
  await Prisma.transaction
          (await Prisma.pokemonType_deleteMany id ;;
           Prisma.pokemon_delete id) ;;
  ret tt.

(** Returns the new row with [include: { type: true }]. *)
Definition addType (pokemonId typeId : Z) : M (Z * Z * option string) :=
  await findById pokemonId ;;
  type_ <- Prisma.type_findUnique (Some typeId) ;;
  await throw_if (bool_decide (type_ = None)) TipoNaoEncontrado ;;
  existingPokemonType <- Prisma.pokemonType_findUnique pokemonId typeId ;;
  await throw_if (bool_decide (is_Some existingPokemonType)) PokemonJaPossuiEsteTipo ;;
  existingTypes <- Prisma.pokemonType_count pokemonId ;;
  await throw_if (2 <=? existingTypes) MaximoDoisTipos ;;
  row <- Prisma.pokemonType_create pokemonId (Some typeId) ;;
  gets (λ s, (row, type s !! row.2)).

(** Returns the acknowledgement [{ message }]. *)
Definition removeType (pokemonId typeId : Z) : M unit :=
  await findById pokemonId ;;
  typeCount <- Prisma.pokemonType_count pokemonId ;;
  await throw_if (typeCount <=? 1) MinimoUmTipo ;;
  await Prisma.pokemonType_delete pokemonId typeId ;;
  ret tt.

End PokemonService.

(** ** Consistency of a store *)

(** The label assignments of an entity, and their number. *)
Definition assignments (s : Store) (i : Z) : gset (Z * Z) :=
  Prisma.types_of i (pokemonType s).

Definition count (s : Store) (i : Z) : nat := size (assignments s i).

(** What the schema guarantees of every committed store: names are
    unique, the rows of the join table refer to rows that exist, and the
    sequence is ahead of every id in use. *)
Record WF (s : Store) : Prop := mkWF {
  wf_name : ∀ i j p q,
    pokemon s !! i = Some p → pokemon s !! j = Some q → name p = name q → i = j;
  wf_pokemonId : ∀ r, r ∈ pokemonType s → is_Some (pokemon s !! pokemonId r);
  wf_typeId : ∀ r, r ∈ pokemonType s → is_Some (type s !! typeId r);
  wf_seq : ∀ i, is_Some (pokemon s !! i) → i < pokemon_id_seq s;
}.

(** The cardinality invariant: every pokemon has one or two types. *)
Definition Card (s : Store) : Prop :=
  ∀ i, is_Some (pokemon s !! i) → (1 ≤ count s i ≤ 2)%nat.

Definition Inv (s : Store) : Prop := WF s ∧ Card s.

(** A call of one of the methods of the service. *)
Inductive Op : Type :=
| FindMany (filters : PokemonQuery)
| FindById (id : Z)
| Create (data : CreatePokemonInput)
| Update (id : Z) (data : UpdatePokemonInput)
| Delete (id : Z)
| AddType (pokemonId typeId : Z)
| RemoveType (pokemonId typeId : Z).

(** The store a call leaves when it has completed, whether it returned
    or threw. *)
Definition run_op (op : Op) (s : Store) : Store :=
  match op with
  | FindMany filters => (PokemonService.findMany filters s).2
  | FindById id => (PokemonService.findById id s).2
  | Create data => (PokemonService.create data s).2
  | Update id data => (PokemonService.update id data s).2
  | Delete id => (PokemonService.delete id s).2
  | AddType pokemonId typeId => (PokemonService.addType pokemonId typeId s).2
  | RemoveType pokemonId typeId => (PokemonService.removeType pokemonId typeId s).2
  end.

Definition run_ops (ops : list Op) (s : Store) : Store :=
  foldl (λ s op, run_op op s) s ops.

(** ** Sample stores and inputs *)

Module Sample.

Definition types : gmap Z string :=
  list_to_map [(1, "fire"); (2, "water"); (3, "grass"); (4, "flying")]%string.

Definition empty : Store := mkStore ∅ types ∅ 1.

Definition charizard : CreatePokemonInput :=
  mkCreatePokemonInput "Charizard" (Some 17) (Some 905) (Some "Flame"%string) None
    78 84 78 100 "1" (Some "4"%string).

Definition squirtle : CreatePokemonInput :=
  mkCreatePokemonInput "Squirtle" (Some 0) None (Some ""%string) (Some ""%string)
    44 48 65 43 "2" None.

(** Both references name the type fire. *)
Definition charmander : CreatePokemonInput :=
  mkCreatePokemonInput "Charmander" (Some 6) (Some 85) None None
    39 52 43 65 "1" (Some "01"%string).

(** Charizard (id 1, fire and flying) and Squirtle (id 2, water). *)
Definition two : Store :=
  (PokemonService.create squirtle (PokemonService.create charizard empty).2).2.

Definition charizard_row : Pokemon :=
  mkPokemon "Charizard" (Some 17) (Some 905) (Some "Flame"%string) None 78 84 78 100.

(** An update of the name and of the type references only. *)
Definition update_of (nm primary secondary : option string) : UpdatePokemonInput :=
  mkUpdatePokemonInput nm None None None None None None None None primary secondary.

Definition session : list Op :=
  [ Create charizard; Create squirtle; Create charmander;
    AddType 2 3; AddType 1 3; RemoveType 1 4; RemoveType 2 1;
    Update 1 (update_of None None (Some "2"%string));
    Update 2 (update_of (Some "Charizard"%string) (Some "1"%string) None);
    Create charizard; Delete 1; FindById 2 ].

(** Twenty-five pokemon named A to Y, each of type fire. *)
Definition letter (i : nat) : CreatePokemonInput :=
  mkCreatePokemonInput (String (ascii_of_nat (65 + i)) "") None None None None
    1 1 1 1 "1" None.

Definition twenty_five : Store :=
  foldl (λ s i, (PokemonService.create (letter i) s).2) empty (seq 0 25).

Definition query (page limit : Z) : PokemonQuery :=
  mkPokemonQuery (Some page) (Some limit) None None.

(** The ids of a page and its metadata. *)
Definition summary (r : Result Page * Store) : option (list Z * Pagination) :=
  match r.1 with
  | Ok pg => Some (pw_id <$> data pg, pagination pg)
  | Err _ => None
  end.

(** [two] and a third pokemon whose name is the empty string. *)
Definition nameless : Store :=
  (PokemonService.create
     (mkCreatePokemonInput "" None None None None 1 1 1 1 "3" None) two).2.

End Sample.

(** ** Vocabulary of the statements about type references *)

(** A reference is supplied when the property is truthy. *)
Definition supplied (ref : option string) : Prop := JS.truthy_string ref = true.

(** A reference resolves to the label [t]. *)
Definition resolves (s : Store) (ref : option string) (t : Z) : Prop :=
  PokemonService.parseInt ref = Some t ∧ is_Some (type s !! t).

(** A reference names a label id that no label has. *)
Definition dangling (s : Store) (ref : option string) : Prop :=
  ∃ t, PokemonService.parseInt ref = Some t ∧ type s !! t = None.

(** The supplied references resolve, and not both to the same label. *)
Definition references_ok (s : Store) (primary secondary : option string) : Prop :=
  (supplied primary → ∃ t, resolves s primary t)
  ∧ (supplied secondary → ∃ t, resolves s secondary t)
  ∧ (∀ t, ¬ (resolves s primary t ∧ resolves s secondary t)).

(** No other pokemon owns the name an update supplies. *)
Definition name_free_for (s : Store) (id : Z) (data : UpdatePokemonInput) : Prop :=
  ∀ nm j q, u_name data = Some nm → pokemon s !! j = Some q → name q = nm → j = id.

(** ** Inside a mutation *)

(** Inside a mutation of pokemon [i] the store is consistent but for
    the number [k] of types of [i]. *)
Definition Inv_at (i : Z) (k : nat) (s : Store) : Prop :=
  WF s ∧ is_Some (pokemon s !! i) ∧ count s i = k ∧
  ∀ j, j ≠ i → is_Some (pokemon s !! j) → (1 ≤ count s j ≤ 2)%nat.

(** ** What a call threw *)

Definition error_of {A} (r : Result A * Store) : option Error :=
  match r.1 with
  | Ok _ => None
  | Err e => Some e
  end.

(** The error a call of the service completes with, if it throws. *)
Definition thrown (op : Op) (s : Store) : option Error :=
  match op with
  | FindMany filters => error_of (PokemonService.findMany filters s)
  | FindById id => error_of (PokemonService.findById id s)
  | Create data => error_of (PokemonService.create data s)
  | Update id data => error_of (PokemonService.update id data s)
  | Delete id => error_of (PokemonService.delete id s)
  | AddType pokemonId typeId => error_of (PokemonService.addType pokemonId typeId s)
  | RemoveType pokemonId typeId => error_of (PokemonService.removeType pokemonId typeId s)
  end.

(** The update input [{}]. *)
Definition empty_update : UpdatePokemonInput :=
  mkUpdatePokemonInput None None None None None None None None None None None.

(** ** The validation middleware *)

(** A shallow embedding of [src/middleware/validation.ts].  The values
    of a request ([any] in the source) and the values that a handler can
    throw besides a [ZodError] are parameters; so are the schema, through
    its [parse] method, and the continuation [next]. *)
Module Validation.

(** ["body" | "params" | "query"]. *)
Inductive ValidationType : Type :=
| Body
| Params
| Query.

#[global] Instance ValidationType_eq_dec : EqDecision ValidationType.
Proof. solve_decision. Defined.

(** An element of the path of an issue: a property name or an index. *)
Inductive PathItem : Type :=
| Key (k : string)
| Index (i : N).

(** [ToString] of an element of a path. *)
Definition to_string (p : PathItem) : string :=
  match p with
  | Key k => k
  | Index i => pretty i
  end.

(** [path.join(sep)]. *)
Fixpoint join (sep : string) (path : list PathItem) : string :=
  match path with
  | [] => ""
  | [p] => to_string p
  | p :: path' => to_string p +:+ sep +:+ join sep path'
  end.

Record ZodIssue : Type := mkZodIssue {
  path : list PathItem;
  message : string;
  code : string;
}.

(** An entry of the [errors] array of the 400 response. *)
Record ErrorMessage : Type := mkErrorMessage {
  em_field : string;
  em_message : string;
  em_code : string;
}.

(** The object given to [res.json]; [errors] is absent from the 500
    response. *)
Record ResponseBody : Type := mkResponseBody {
  rb_success : bool;
  rb_message : string;
  rb_errors : option (list ErrorMessage);
}.

(** [res.status(status).json(body)]. *)
Record Response : Type := mkResponse {
  status : Z;
  json : ResponseBody;
}.

Section middleware.
Context {V E : Type}.

(** [req.validatedData]: each of its three properties is optional. *)
Record ValidatedData : Type := mkValidatedData {
  vd_body : option V;
  vd_params : option V;
  vd_query : option V;
}.

(** [TypedRequest], as far as the middleware reads and writes it. *)
Record TypedRequest : Type := mkTypedRequest {
  body : V;
  params : V;
  query : V;
  validatedData : option ValidatedData;
}.

(** What a [try] block can catch. *)
Inductive Thrown : Type :=
| ZodError (issues : list ZodIssue)
| Other (error : E).

(** [schema.parse]: the validated data, or what it throws. *)
Definition Schema : Type := V → V + Thrown.

(** [next()]: the rest of the chain, run on the request as it is at the
    call; [Some] when it throws. *)
Definition NextFunction : Type := TypedRequest → option Thrown.

(** What a run of the middleware did: the request as it left it, whether
    it called [next], the response it sent and what it wrote to
    [console.error]. *)
Record Outcome : Type := mkOutcome {
  request : TypedRequest;
  next_called : bool;
  response : option Response;
  logged : option E;
}.

(** [validatedData[type]]. *)
Definition get (type : ValidationType) (vd : ValidatedData) : option V :=
  match type with
  | Body => vd_body vd
  | Params => vd_params vd
  | Query => vd_query vd
  end.

(** [validatedData[type] = v]. *)
Definition set (type : ValidationType) (v : V) (vd : ValidatedData) : ValidatedData :=
  match type with
  | Body => mkValidatedData (Some v) (vd_params vd) (vd_query vd)
  | Params => mkValidatedData (vd_body vd) (Some v) (vd_query vd)
  | Query => mkValidatedData (vd_body vd) (vd_params vd) (Some v)
  end.

(** The [switch]: the part of the request that [type] names. *)
Definition dataToValidate (type : ValidationType) (req : TypedRequest) : V :=
  match type with
  | Body => body req
  | Params => params req
  | Query => query req
  end.

(** The [catch] block. *)
Definition catch (error : Thrown) (req : TypedRequest) (called : bool) : Outcome :=
  match error with
  | ZodError issues =>
      let errorMessages :=
        (λ err, mkErrorMessage (join "." (path err)) (message err) (code err))
          <$> issues in
      mkOutcome req called
        (Some (mkResponse 400
           (mkResponseBody false "Dados de entrada inválidos" (Some errorMessages))))
        None
  | Other error =>
      mkOutcome req called
        (Some (mkResponse 500 (mkResponseBody false "Erro interno do servidor" None)))
        (Some error)
  end.

(** [validate(schema, type)(req, res, next)]; [type] defaults to
    ["body"]. *)
Definition validate (schema : Schema) (type : option ValidationType)
    (req : TypedRequest) (next : NextFunction) : Outcome :=
  let type := default Body type in
  let dataToValidate := dataToValidate type req in
  match schema dataToValidate with
  | inl validated =>
      let req :=
        mkTypedRequest (body req) (params req) (query req)
          (Some (set type validated
                   (default (mkValidatedData None None None) (validatedData req)))) in
      match next req with
      | None => mkOutcome req true None None
      | Some error => catch error req true
      end
  | inr error => catch error req false
  end.

Definition validateBody (schema : Schema) := validate schema (Some Body).

Definition validateParams (schema : Schema) := validate schema (Some Params).

Definition validateQuery (schema : Schema) := validate schema (Some Query).

(** [getValidatedData(req, type)]; [None] is [undefined]. *)
Definition getValidatedData (req : TypedRequest) (type : option ValidationType) : option V :=
  validatedData req ≫= get (default Body type).

End middleware.

Arguments ValidatedData : clear implicits.
Arguments TypedRequest : clear implicits.
Arguments Thrown : clear implicits.
Arguments Schema : clear implicits.
Arguments NextFunction : clear implicits.
Arguments Outcome : clear implicits.

End Validation.

(** ** A sample request *)

Module SampleRequest.

(** Requests whose values are integers, and a schema that accepts the
    integers from 0 on. *)
Definition nonNegative : Validation.Schema Z string :=
  λ v, if Z.leb 0 v then inl v
       else inr (Validation.ZodError
                   [Validation.mkZodIssue [Validation.Key "id"] "Too small" "too_small"]).

(** A body that the schema accepts and parameters that it rejects. *)
Definition req : Validation.TypedRequest Z := Validation.mkTypedRequest 5%Z (-1)%Z 0%Z None.

Definition proceed : Validation.NextFunction Z string := λ _, None.

Definition failing : Validation.NextFunction Z string :=
  λ _, Some (Validation.Other "boom"%string).

End SampleRequest.

(** * Proofs *)

Import Prisma.

(** ** parseInt and the name filter on examples *)

Example parseInt_decimal : JS.parseInt "25" = Some 25.
Proof. reflexivity. Qed.

Example parseInt_leading_zero : JS.parseInt " 007x" = Some 7.
Proof. reflexivity. Qed.

Example parseInt_hex : JS.parseInt "-0x1F" = Some (-31).
Proof. reflexivity. Qed.

Example parseInt_nan : JS.parseInt "abc" = None.
Proof. reflexivity. Qed.

Example parseInt_empty : JS.parseInt "" = None.
Proof. reflexivity. Qed.

Example contains_insensitive_ex : JS.contains_insensitive "CHU" "Pikachu" = true.
Proof. reflexivity. Qed.


(** ** The join table *)

Section join_table.
Implicit Types (rows : gset (Z * Z)) (r : Z * Z) (i j t : Z).

Lemma elem_of_types_of i r rows : r ∈ types_of i rows ↔ r.1 = i ∧ r ∈ rows.
Proof. unfold types_of, pokemonId. set_solver. Qed.

Lemma types_of_insert_ne i j t rows :
  j ≠ i → types_of j ({[ (i, t) ]} ∪ rows) = types_of j rows.
Proof. intros. apply set_eq. intros r. rewrite !elem_of_types_of. set_solver. Qed.

Lemma size_types_of_insert i t rows :
  (i, t) ∉ rows →
  size (types_of i ({[ (i, t) ]} ∪ rows)) = S (size (types_of i rows)).
Proof.
  intros Hnot.
  assert (types_of i ({[ (i, t) ]} ∪ rows) = {[ (i, t) ]} ∪ types_of i rows) as ->.
  { apply set_eq. intros r. rewrite elem_of_union, !elem_of_types_of. set_solver. }
  rewrite size_union, size_singleton; [done|].
  intros r. rewrite elem_of_types_of. set_solver.
Qed.

Lemma types_of_deleteMany i rows :
  types_of i (filter (λ r, pokemonId r ≠ i) rows) = ∅.
Proof.
  apply set_eq. intros r. rewrite elem_of_types_of. unfold pokemonId. set_solver.
Qed.

Lemma types_of_deleteMany_ne i j rows :
  j ≠ i → types_of j (filter (λ r, pokemonId r ≠ i) rows) = types_of j rows.
Proof.
  intros. apply set_eq. intros r. rewrite !elem_of_types_of.
  unfold pokemonId. set_solver.
Qed.

Lemma size_types_of_delete i t rows :
  (i, t) ∈ rows →
  size (types_of i rows) = S (size (types_of i (rows ∖ {[ (i, t) ]}))).
Proof.
  intros Hin.
  assert (types_of i rows = {[ (i, t) ]} ∪ types_of i (rows ∖ {[ (i, t) ]})) as Heq.
  { apply set_eq. intros r. rewrite elem_of_union, !elem_of_types_of.
    destruct (decide (r = (i, t))); set_solver. }
  rewrite Heq at 1. rewrite size_union, size_singleton; [done|].
  intros r. rewrite elem_of_types_of. set_solver.
Qed.

Lemma types_of_delete_ne i j t rows :
  j ≠ i → types_of j (rows ∖ {[ (i, t) ]}) = types_of j rows.
Proof. intros. apply set_eq. intros r. rewrite !elem_of_types_of. set_solver. Qed.

Lemma types_of_empty_iff i rows :
  types_of i rows = ∅ ↔ ∀ t, (i, t) ∉ rows.
Proof.
  split.
  - intros Hempty t Hin.
    assert ((i, t) ∈ types_of i rows) as Hin' by by apply elem_of_types_of.
    rewrite Hempty in Hin'. set_solver.
  - intros Hnone. apply set_eq. intros [j t]. rewrite elem_of_types_of.
    split; [|set_solver]. intros [? ?]; simplify_eq/=. by destruct (Hnone t).
Qed.

End join_table.

(** ** The unique index on names *)

Lemma find_by_name_Some nm ps i p :
  find_by_name nm ps = Some (i, p) → ps !! i = Some p ∧ name p = nm.
Proof.
  unfold find_by_name. intros Hhd. apply head_Some_elem_of in Hhd.
  apply list_elem_of_filter in Hhd as [Hnm Hin].
  by apply elem_of_map_to_list in Hin.
Qed.

Lemma find_by_name_None nm ps :
  find_by_name nm ps = None ↔ ∀ i p, ps !! i = Some p → name p ≠ nm.
Proof.
  unfold find_by_name. rewrite head_None. split.
  - intros Hnil i p Hip Hnm.
    assert ((i, p) ∈ filter (λ kv : Z * Pokemon, name kv.2 = nm) (map_to_list ps)) as Hin.
    { apply list_elem_of_filter. split; [done|]. by apply elem_of_map_to_list. }
    rewrite Hnil in Hin. by apply not_elem_of_nil in Hin.
  - intros Hall. apply elem_of_nil_inv. intros [i p] Hin.
    apply list_elem_of_filter in Hin as [Hnm Hin].
    apply elem_of_map_to_list in Hin. by eapply Hall.
Qed.

Lemma find_by_name_is_Some nm ps i p :
  ps !! i = Some p → name p = nm → is_Some (find_by_name nm ps).
Proof.
  intros Hip Hnm. destruct (find_by_name nm ps) eqn:Hfind; [by eexists|].
  rewrite find_by_name_None in Hfind. by destruct (Hfind i p).
Qed.

(** ** The steps of a mutation *)

Lemma Inv_at_intro s i : Inv s → is_Some (pokemon s !! i) → Inv_at i (count s i) s.
Proof. intros [Hwf Hc] Hi. split_and!; auto. Qed.

Lemma Inv_at_elim s i k : Inv_at i k s → (1 ≤ k ≤ 2)%nat → Inv s.
Proof.
  intros (Hwf & Hi & Hk & Hc) Hle. split; [done|]. intros j Hj.
  destruct (decide (j = i)) as [->|Hne]; [lia|auto].
Qed.

Lemma no_rows_of_missing s i :
  WF s → pokemon s !! i = None → types_of i (pokemonType s) = ∅.
Proof.
  intros Hwf Hnone. apply types_of_empty_iff. intros t Hin.
  apply (wf_pokemonId _ Hwf) in Hin. unfold pokemonId in Hin; simpl in Hin.
  rewrite Hnone in Hin. by destruct Hin.
Qed.

Section steps.
Context (P : gmap Z Pokemon) (T : gmap Z string) (R : gset (Z * Z)) (n : Z).

Lemma step_seq n' :
  Inv (mkStore P T R n) → n ≤ n' → Inv (mkStore P T R n').
Proof.
  intros [[Hn Hp Ht Hs] Hc] Hle. split; [split|]; try done.
  intros i Hi. specialize (Hs i Hi). simpl in *. lia.
Qed.

Lemma step_pokemon_create row :
  Inv (mkStore P T R n) →
  find_by_name (name row) P = None → P !! n = None →
  Inv_at n 0 (mkStore (<[n:=row]> P) T R (n + 1)).
Proof.
  intros [Hwf Hc] Hfresh Hnone. pose proof Hwf as [Hn Hp Ht Hs]. simpl in *.
  rewrite find_by_name_None in Hfresh.
  split_and!; simpl.
  - split; simpl.
    + intros i j p q Hi Hj Hpq.
      rewrite lookup_insert in Hi, Hj.
      repeat case_decide; simplify_eq; try done; [..|by eauto].
      all: exfalso; eapply Hfresh; [eassumption|congruence].
    + intros r Hr. apply lookup_insert_is_Some'. right. auto.
    + auto.
    + intros i [Hi|Hi]%lookup_insert_is_Some'; [lia|]. specialize (Hs i Hi). lia.
  - rewrite lookup_insert_eq. by eexists.
  - pose proof (no_rows_of_missing _ n Hwf Hnone) as Hrows. simpl in Hrows.
    unfold count, assignments; simpl. rewrite Hrows. apply size_empty.
  - intros j Hne [Hj|Hj]%lookup_insert_is_Some'; [done|]. by apply Hc.
Qed.

Lemma step_pokemon_update i k old new :
  Inv_at i k (mkStore P T R n) →
  P !! i = Some old → find_by_name (name new) (delete i P) = None →
  Inv_at i k (mkStore (<[i:=new]> P) T R n).
Proof.
  intros ([Hn Hp Ht Hs] & Hi & Hk & Hc) Hold Hfresh. simpl in *.
  rewrite find_by_name_None in Hfresh.
  assert (∀ j, is_Some (<[i:=new]> P !! j) → is_Some (P !! j)) as Hdom.
  { intros j [->|Hj]%lookup_insert_is_Some'; [by eexists|done]. }
  split_and!; simpl.
  - split; simpl.
    + intros j1 j2 p q Hj1 Hj2 Hpq.
      rewrite lookup_insert in Hj1, Hj2.
      repeat case_decide; simplify_eq; try done; [..|by eauto].
      all: exfalso; eapply Hfresh; [by rewrite lookup_delete_ne|congruence].
    + intros r Hr. apply lookup_insert_is_Some'. right. auto.
    + auto.
    + intros j Hj. auto.
  - rewrite lookup_insert_eq. by eexists.
  - done.
  - intros j Hne Hj. apply Hc; auto.
Qed.

Lemma step_pokemon_delete i :
  Inv_at i 0 (mkStore P T R n) → Inv (mkStore (delete i P) T R n).
Proof.
  intros ([Hn Hp Ht Hs] & Hi & Hk & Hc). simpl in *.
  unfold count, assignments in Hk; simpl in Hk.
  apply size_empty_inv, leibniz_equiv in Hk.
  rewrite types_of_empty_iff in Hk.
  split; [split|]; simpl.
  - intros j1 j2 p q Hj1 Hj2. rewrite lookup_delete in Hj1, Hj2.
    repeat case_decide; simplify_eq. eauto.
  - intros [j t] Hr. unfold pokemonId; simpl.
    rewrite lookup_delete_ne; [by apply (Hp (j, t))|].
    intros <-. by destruct (Hk t).
  - auto.
  - intros j Hj. apply Hs. rewrite lookup_delete in Hj.
    case_decide; [by destruct Hj|done].
  - intros j Hj. simpl in Hj. rewrite lookup_delete in Hj.
    case_decide; [by destruct Hj|]. apply Hc; auto.
Qed.

Lemma step_pokemonType_create i k t :
  Inv_at i k (mkStore P T R n) →
  (i, t) ∉ R → is_Some (T !! t) →
  Inv_at i (S k) (mkStore P T ({[ (i, t) ]} ∪ R) n).
Proof.
  intros ([Hn Hp Ht Hs] & Hi & Hk & Hc) Hnot Htype. simpl in *.
  split_and!; simpl.
  - split; simpl; try done.
    + intros r [->%elem_of_singleton|Hr]%elem_of_union; auto.
    + intros r [->%elem_of_singleton|Hr]%elem_of_union; auto.
  - done.
  - unfold count, assignments in *; simpl in *.
    by rewrite size_types_of_insert, Hk.
  - intros j Hne Hj. unfold count, assignments in *; simpl in *.
    rewrite types_of_insert_ne by done. by apply Hc.
Qed.

Lemma step_pokemonType_deleteMany i k :
  Inv_at i k (mkStore P T R n) →
  Inv_at i 0 (mkStore P T (filter (λ r, pokemonId r ≠ i) R) n).
Proof.
  intros ([Hn Hp Ht Hs] & Hi & Hk & Hc). simpl in *.
  split_and!; simpl.
  - split; simpl; try done.
    + intros r [_ Hr]%elem_of_filter. auto.
    + intros r [_ Hr]%elem_of_filter. auto.
  - done.
  - unfold count, assignments; simpl. rewrite types_of_deleteMany. apply size_empty.
  - intros j Hne Hj. unfold count, assignments in *; simpl in *.
    rewrite types_of_deleteMany_ne by done. by apply Hc.
Qed.

Lemma step_pokemonType_delete i k t :
  Inv_at i (S k) (mkStore P T R n) →
  (i, t) ∈ R →
  Inv_at i k (mkStore P T (R ∖ {[ (i, t) ]}) n).
Proof.
  intros ([Hn Hp Ht Hs] & Hi & Hk & Hc) Hin. simpl in *.
  split_and!; simpl.
  - split; simpl; try done.
    + intros r [Hr _]%elem_of_difference. auto.
    + intros r [Hr _]%elem_of_difference. auto.
  - done.
  - unfold count, assignments in *; simpl in *.
    rewrite (size_types_of_delete i t R Hin) in Hk. lia.
  - intros j Hne Hj. unfold count, assignments in *; simpl in *.
    rewrite types_of_delete_ne by done. by apply Hc.
Qed.

End steps.

(** ** Running a method *)

Ltac red_store :=
  unfold set_pokemon, set_pokemonType, set_pokemon_id_seq in *;
  cbn [fst snd pokemon type pokemonType pokemon_id_seq] in *.

Ltac unfold_M :=
  unfold PokemonService.create, PokemonService.update, PokemonService.delete,
    PokemonService.addType, PokemonService.removeType, PokemonService.findById,
    transaction, rollback, pokemon_findUnique_include, pokemon_findUnique_name,
    type_findUnique, pokemonType_findUnique, pokemonType_count, pokemon_create,
    pokemon_update, pokemon_delete, pokemonType_create, pokemonType_deleteMany,
    pokemonType_delete, throw_if, when in *;
  unfold bind, ret, throw, gets, modify in *.

(** Follows every path through a method. *)
Ltac run :=
  unfold_M; red_store;
  repeat (case_match; simplify_eq; red_store);
  repeat match goal with H : decide _ = _ |- _ => clear H end.

(** Replays the steps that led to the store of the goal. *)
Ltac inv_step :=
  lazymatch goal with
  | |- Inv_at _ _ (mkStore _ _ ({[ _ ]} ∪ _) _) => eapply step_pokemonType_create
  | |- Inv_at _ _ (mkStore _ _ (filter _ _) _) => eapply step_pokemonType_deleteMany
  | |- Inv_at _ _ (mkStore _ _ (_ ∖ _) _) => eapply step_pokemonType_delete
  | |- Inv_at _ _ (mkStore (<[_:=_]> _) _ _ (_ + 1)) => eapply step_pokemon_create
  | |- Inv_at _ _ (mkStore (<[_:=_]> _) _ _ _) => eapply step_pokemon_update
  | |- Inv_at _ _ _ => eapply Inv_at_intro
  end.

Lemma bool_decide_None_false {A} (o : option A) :
  bool_decide (o = None) = false → is_Some o.
Proof. intros H%bool_decide_eq_false. by destruct o; [eexists|]. Qed.

Ltac side :=
  first [ done | lia | by eexists | by apply bool_decide_None_false ].

Lemma create_Inv data s : Inv s → Inv (PokemonService.create data s).2.
Proof.
  intros HInv. destruct s as [P T R n].
  destruct (PokemonService.create data _) as [r s'] eqn:Hrun. run.
  all: try done.
  all: try (apply (step_seq P T R n); [done|lia]).
  all: eapply Inv_at_elim; [repeat inv_step|]; side.
Qed.

Lemma pokemon_update_Inv P T R n i old new :
  Inv (mkStore P T R n) →
  P !! i = Some old → find_by_name (name new) (delete i P) = None →
  Inv (mkStore (<[i:=new]> P) T R n).
Proof.
  intros HInv Hold Hfresh.
  assert (is_Some (pokemon (mkStore P T R n) !! i)) as Hi by by eexists.
  eapply Inv_at_elim.
  - eapply step_pokemon_update; [by apply Inv_at_intro|done..].
  - by apply HInv.
Qed.

Lemma update_Inv id data s : Inv s → Inv (PokemonService.update id data s).2.
Proof.
  intros HInv. destruct s as [P T R n].
  destruct (PokemonService.update id data _) as [r s'] eqn:Hrun. run.
  all: try done.
  all: try (eapply Inv_at_elim; [repeat inv_step|]; side).
  all: by eapply pokemon_update_Inv.
Qed.

Lemma delete_Inv id s : Inv s → Inv (PokemonService.delete id s).2.
Proof.
  intros HInv. destruct s as [P T R n].
  destruct (PokemonService.delete id _) as [r s'] eqn:Hrun. run.
  all: try done.
  all: eapply step_pokemon_delete; repeat inv_step; side.
Qed.

Lemma addType_Inv pokemonId typeId s :
  Inv s → Inv (PokemonService.addType pokemonId typeId s).2.
Proof.
  intros HInv. destruct s as [P T R n].
  destruct (PokemonService.addType pokemonId typeId _) as [r s'] eqn:Hrun. run.
  all: try done.
  assert (is_Some (pokemon (mkStore P T R n) !! pokemonId)) as Hi by by eexists.
  pose proof (proj2 HInv _ Hi) as Hcard. unfold count, assignments in Hcard.
  simpl in Hcard.
  match goal with H : (2 <=? _) = false |- _ => apply Z.leb_gt in H end.
  eapply Inv_at_elim; [repeat inv_step; side|].
  unfold count, assignments; simpl. lia.
Qed.

Lemma removeType_Inv pokemonId typeId s :
  Inv s → Inv (PokemonService.removeType pokemonId typeId s).2.
Proof.
  intros HInv. destruct s as [P T R n].
  destruct (PokemonService.removeType pokemonId typeId _) as [r s'] eqn:Hrun. run.
  all: try done.
  assert (is_Some (pokemon (mkStore P T R n) !! pokemonId)) as Hi.
  { simpl. by destruct (P !! pokemonId); [eexists|]. }
  pose proof (proj2 HInv _ Hi) as Hcard.
  pose proof (Inv_at_intro _ _ HInv Hi) as Hat.
  unfold count, assignments in Hcard; simpl in Hcard.
  match goal with H : (_ <=? 1) = false |- _ => apply Z.leb_gt in H end.
  replace (count _ pokemonId) with 2%nat in Hat
    by (unfold count, assignments; simpl; lia).
  eapply Inv_at_elim; [by eapply step_pokemonType_delete|lia].
Qed.

Lemma findById_state id s : (PokemonService.findById id s).2 = s.
Proof. run; done. Qed.

Lemma findMany_state filters s : (PokemonService.findMany filters s).2 = s.
Proof.
  unfold PokemonService.findMany, pokemon_findMany, pokemon_count. run; done.
Qed.

(** Every call keeps the store consistent. *)
Lemma run_op_Inv op s : Inv s → Inv (run_op op s).
Proof.
  destruct op; simpl.
  - by rewrite findMany_state.
  - by rewrite findById_state.
  - apply create_Inv.
  - apply update_Inv.
  - apply delete_Inv.
  - apply addType_Inv.
  - apply removeType_Inv.
Qed.

Lemma run_ops_Inv ops s : Inv s → Inv (run_ops ops s).
Proof.
  revert s. induction ops as [|op ops IH]; intros s HInv; simpl; [done|].
  apply IH, run_op_Inv, HInv.
Qed.

(** ** Paths that cannot be taken *)

Lemma parseInt_truthy ref t :
  PokemonService.parseInt ref = Some t → JS.truthy_string ref = true.
Proof. by destruct ref as [[|c ref]|]. Qed.

(** Facts of a path that cannot hold together. *)
Ltac contradict_store :=
  repeat match goal with
  | H : bool_decide _ = true |- _ => apply bool_decide_eq_true in H
  | H : bool_decide _ = false |- _ => apply bool_decide_eq_false in H
  | H : (_ <=? _) = true |- _ => apply Z.leb_le in H
  | H : (_ <=? _) = false |- _ => apply Z.leb_gt in H
  | H : is_Some ?o, H' : ?o = None |- _ => rewrite H' in H; by destruct H
  | H : <[?i:=_]> _ !! ?i = None |- _ => by rewrite lookup_insert_eq in H
  | H : _ <$> <[?i:=_]> _ !! ?i = None |- _ => by rewrite lookup_insert_eq in H
  | H : _ <$> _ = None |- _ => apply fmap_None in H
  | H : _ <$> ?o = Some _, H' : ?o = None |- _ => by rewrite H' in H
  | H : _ || _ = false |- _ => apply orb_false_elim in H as [? ?]; congruence
  | H : (?i, _) ∈ filter (λ r, pokemonId r ≠ ?i) _ |- _ =>
      apply elem_of_filter in H as [H _]; by destruct H
  | H : ?x ∉ {[ ?x ]} ∪ _ |- _ => destruct H; set_solver
  | H : ?o = None, H' : ¬ (?o = None) |- _ => by destruct H'
  | H : ?o = Some _, H' : ?o = None |- _ => by rewrite H' in H
  | H : ¬ is_Some (Some _) |- _ => destruct H; by eexists
  | H : is_Some None |- _ => by destruct H
  | Hwf : WF (mkStore ?P _ _ ?n), H : ?P !! ?n = Some _ |- _ =>
      pose proof (wf_seq _ Hwf n) as Hlt; simpl in Hlt;
      rewrite H in Hlt; specialize (Hlt (mk_is_Some _ _ eq_refl)); lia
  end;
  try lia.

(** ** The cardinality invariant *)

Lemma Inv_empty T n : Inv (mkStore ∅ T ∅ n).
Proof.
  split; [split|]; simpl.
  - intros i j p q Hi. by rewrite lookup_empty in Hi.
  - intros r Hr. set_solver.
  - intros r Hr. set_solver.
  - intros i [p Hi]. by rewrite lookup_empty in Hi.
  - intros i [p Hi]. simpl in Hi. by rewrite lookup_empty in Hi.
Qed.

(** C1.  Starting from a consistent store, after every sequence of
    completed calls of the service every pokemon has one or two types. *)
Theorem cardinality_invariant (ops : list Op) (s0 : Store) (i : Z) :
  WF s0 → Card s0 →
  is_Some (pokemon (run_ops ops s0) !! i) →
  count (run_ops ops s0) i = 1%nat ∨ count (run_ops ops s0) i = 2%nat.
Proof.
  intros Hwf Hcard Hi.
  destruct (run_ops_Inv ops s0 (conj Hwf Hcard)) as [_ Hc].
  specialize (Hc i Hi). lia.
Qed.

(** ** create *)

(** C2.  [create] with the name of an existing pokemon throws the name
    conflict and leaves the store as it was. *)
Theorem create_existing_name (data : CreatePokemonInput) (s : Store) (i : Z) (p : Pokemon) :
  pokemon s !! i = Some p → name p = c_name data →
  PokemonService.create data s = (Err (JaExistePokemonComNome (c_name data)), s)
  ∧ kind_of (JaExistePokemonComNome (c_name data)) = Conflict.
Proof.
  intros Hi Hname. split; [|done].
  pose proof (find_by_name_is_Some _ _ _ _ Hi Hname) as Hfind.
  unfold PokemonService.create, bind, pokemon_findUnique_name, gets, throw_if.
  by rewrite bool_decide_eq_true_2.
Qed.

(** C3.  [create] with a primary and a secondary reference to the same
    existing type never returns: the second insertion into the join table
    violates the unique key [(pokemonId, typeId)], the transaction is
    rolled back and no row is left (when the name is taken, the name
    conflict comes first). *)
Theorem create_equal_references (data : CreatePokemonInput) (s : Store) (t : Z) :
  WF s →
  JS.parseInt (c_primaryTypeId data) = Some t →
  PokemonService.parseInt (c_secondaryTypeId data) = Some t →
  is_Some (type s !! t) →
  ∃ e s',
    PokemonService.create data s = (Err e, s')
    ∧ pokemon s' = pokemon s ∧ pokemonType s' = pokemonType s ∧ type s' = type s
    ∧ ((∀ i p, pokemon s !! i = Some p → name p ≠ c_name data) →
       e = P2002 PokemonType_pokemonId_typeId).
Proof.
  intros Hwf Hprimary Hsecondary Htype.
  pose proof (parseInt_truthy _ _ Hsecondary) as Htruthy.
  destruct s as [P T R n].
  destruct (PokemonService.create data _) as [r s'] eqn:Hrun. run.
  all: try by (exfalso; contradict_store).
  all: eexists _, _; split_and!; try done.
  all: intros Hfree%find_by_name_None; simpl in *; rewrite Hfree in *.
  all: by contradict_store.
Qed.

(** C9.  When [create] returns, the stored row has [null] where the
    input had a falsy optional attribute: a height or weight of 0, an empty
    description or image reference. *)
Theorem create_coerces_falsy (data : CreatePokemonInput) (s s' : Store) (h : PokemonWithTypes) :
  PokemonService.create data s = (Ok h, s') →
  pokemon s' !! pw_id h = Some (pw_pokemon h)
  ∧ (c_height data = Some 0 → height (pw_pokemon h) = None)
  ∧ (c_weight data = Some 0 → weight (pw_pokemon h) = None)
  ∧ (c_description data = Some ""%string → description (pw_pokemon h) = None)
  ∧ (c_imageUrl data = Some ""%string → imageUrl (pw_pokemon h) = None)
  ∧ height (pw_pokemon h) = JS.number_or_null (c_height data)
  ∧ weight (pw_pokemon h) = JS.number_or_null (c_weight data)
  ∧ description (pw_pokemon h) = JS.string_or_null (c_description data)
  ∧ imageUrl (pw_pokemon h) = JS.string_or_null (c_imageUrl data).
Proof.
  intros Hrun. destruct s as [P T R n]. run.
  all: rewrite lookup_insert_eq in *; simplify_eq/=.
  all: rewrite lookup_insert_eq.
  all: split_and!; try done.
  all: by intros ->.
Qed.

(** [create] returns when the name is free and the references resolve to
    one type or to two different types. *)
Lemma create_returns (data : CreatePokemonInput) (s : Store) (t1 : Z) :
  WF s →
  (∀ i p, pokemon s !! i = Some p → name p ≠ c_name data) →
  JS.parseInt (c_primaryTypeId data) = Some t1 → is_Some (type s !! t1) →
  (¬ supplied (c_secondaryTypeId data)
   ∨ ∃ t2, resolves s (c_secondaryTypeId data) t2 ∧ t2 ≠ t1) →
  ∃ h s', PokemonService.create data s = (Ok h, s') ∧ pw_id h = pokemon_id_seq s.
Proof.
  intros Hwf Hfree%find_by_name_None Hprimary Htype1 Hsecondary.
  destruct s as [P T R n]. simpl in *.
  pose proof (no_rows_of_missing (mkStore P T R n) n Hwf) as Hrows. simpl in Hrows.
  rewrite types_of_empty_iff in Hrows.
  destruct (PokemonService.create data _) as [r s'] eqn:Hrun.
  destruct Hsecondary as [Hnone%not_true_is_false|(t2 & [Hparse Htype2] & Hne)]; run.
  all: try by (exfalso; contradict_store).
  all: try by (exfalso; set_solver).
  all: rewrite lookup_insert_eq in *; simplify_eq/=.
  all: by eexists _, _.
Qed.

(** ** update *)

Lemma name_updateData data old :
  name (PokemonService.updateData data old) = default (name old) (u_name data).
Proof. done. Qed.

(** The pre-check of [update] passes when no other pokemon owns the
    name. *)
Lemma owned_by_other_free s id data nm :
  name_free_for s id data → u_name data = Some nm →
  PokemonService.owned_by_other (find_by_name nm (pokemon s)) id = false.
Proof.
  intros Hfree Hnm. destruct (find_by_name nm (pokemon s)) as [[j q]|] eqn:Hfind; [|done].
  apply find_by_name_Some in Hfind as [Hj Hq].
  rewrite (Hfree nm j q Hnm Hj Hq). simpl. by rewrite Z.eqb_refl.
Qed.

(** The unique index on names accepts the updated row. *)
Lemma updated_name_free s id data old :
  WF s → name_free_for s id data → pokemon s !! id = Some old →
  find_by_name (name (PokemonService.updateData data old)) (delete id (pokemon s)) = None.
Proof.
  intros Hwf Hfree Hold. apply find_by_name_None. intros j q Hj Hq.
  rewrite lookup_delete in Hj. case_decide as Hne; [done|].
  rewrite name_updateData in Hq. destruct (u_name data) as [nm|] eqn:Hnm; simpl in Hq.
  - destruct Hne. symmetry. by eapply Hfree.
  - destruct Hne. symmetry. by eapply (wf_name _ Hwf).
Qed.

Ltac contradict_name :=
  match goal with
  | Hwf : WF ?s, Hfree : name_free_for ?s ?id ?data, Hp : ?P !! ?id = Some ?p,
    H : find_by_name (name (PokemonService.updateData ?data ?p)) (delete ?id ?P) = Some _
    |- _ =>
      pose proof (updated_name_free s id data p Hwf Hfree Hp) as Hn;
      cbn [pokemon] in Hn; congruence
  | Hfree : name_free_for ?s ?id ?data, Hnm : u_name ?data = Some ?nm,
    H : PokemonService.owned_by_other (find_by_name ?nm ?P) ?id = true |- _ =>
      pose proof (owned_by_other_free s id data nm Hfree Hnm) as Hn;
      cbn [pokemon] in Hn; congruence
  end.

Lemma types_of_replaced_one i t rows :
  types_of i ({[ (i, t) ]} ∪ filter (λ r, pokemonId r ≠ i) rows) = {[ (i, t) ]}.
Proof.
  apply set_eq. intros r. rewrite elem_of_types_of, elem_of_union, elem_of_filter.
  unfold pokemonId. set_solver.
Qed.

(** The pre-check of [update] fires exactly when another pokemon owns
    the name. *)
Lemma owned_by_other_iff s id nm :
  WF s →
  PokemonService.owned_by_other (find_by_name nm (pokemon s)) id = true
  ↔ ∃ j q, j ≠ id ∧ pokemon s !! j = Some q ∧ name q = nm.
Proof.
  intros Hwf. split.
  - destruct (find_by_name nm (pokemon s)) as [[j q]|] eqn:Hfind; [|done].
    apply find_by_name_Some in Hfind as [Hj Hq]. simpl.
    intros Hne%negb_true_iff%Z.eqb_neq. by exists j, q.
  - intros (j & q & Hne & Hj & Hq).
    destruct (find_by_name_is_Some nm _ j q Hj Hq) as [[j' q'] Hfind].
    rewrite Hfind. apply find_by_name_Some in Hfind as [Hj' Hq']. simpl.
    apply negb_true_iff, Z.eqb_neq.
    by rewrite (wf_name s Hwf j' j q' q Hj' Hj) by congruence.
Qed.

(** C4.  An [update] of an existing pokemon, with no name conflict, that
    supplies a primary reference to an existing type and no secondary
    reference returns and leaves exactly that one type assigned; an
    [update] whose first reference that does not resolve names a missing
    type throws a not-found error and leaves the store as it was. *)
Theorem update_replaces_types (id : Z) (data : UpdatePokemonInput) (s : Store) :
  WF s → is_Some (pokemon s !! id) → name_free_for s id data →
  (∀ t, resolves s (u_primaryTypeId data) t → ¬ supplied (u_secondaryTypeId data) →
        ∃ h s', PokemonService.update id data s = (Ok h, s')
                ∧ assignments s' id = {[ (id, t) ]})
  ∧ (dangling s (u_primaryTypeId data)
     ∨ ((supplied (u_primaryTypeId data) → ∃ t, resolves s (u_primaryTypeId data) t)
        ∧ dangling s (u_secondaryTypeId data)) →
     ∃ e, PokemonService.update id data s = (Err e, s) ∧ kind_of e = NotFound).
Proof.
  intros Hwf [old Hold] Hfree.
  destruct s as [P T R n]. simpl in *. split.
  - intros t [Hparse Htype] Hsecondary.
    pose proof (parseInt_truthy _ _ Hparse) as Hprimary.
    apply not_true_is_false in Hsecondary.
    destruct (PokemonService.update id data _) as [r s'] eqn:Hrun. run.
    all: try by (exfalso; contradict_store).
    all: try by (exfalso; contradict_name).
    all: eexists _, _; split; [done|].
    all: unfold assignments; simpl; apply types_of_replaced_one.
  - intros Hdangling.
    destruct (PokemonService.update id data _) as [r s'] eqn:Hrun.
    destruct Hdangling as [(t & Hparse & Htype)|[Hprimary (t & Hparse & Htype)]];
      pose proof (parseInt_truthy _ _ Hparse) as Htruthy.
    + run.
      all: try by (exfalso; contradict_store).
      all: try by (exfalso; contradict_name).
      all: by eexists.
    + unfold supplied in Hprimary.
      destruct (JS.truthy_string (u_primaryTypeId data)) eqn:Hsupplied;
        [destruct (Hprimary eq_refl) as (t1 & Hparse1 & Htype1)|clear Hprimary].
      all: run.
      all: try by (exfalso; contradict_store).
      all: try by (exfalso; contradict_name).
      all: by eexists.
Qed.

(** [update] returns when no other pokemon owns the supplied name and the
    supplied references resolve, to different types if there are two. *)
Lemma update_returns (id : Z) (data : UpdatePokemonInput) (s : Store) (old : Pokemon) :
  WF s → pokemon s !! id = Some old → name_free_for s id data →
  references_ok s (u_primaryTypeId data) (u_secondaryTypeId data) →
  ∃ h s', PokemonService.update id data s = (Ok h, s')
          ∧ pokemon s' = <[id:=PokemonService.updateData data old]> (pokemon s).
Proof.
  intros Hwf Hold Hfree (Hprimary & Hsecondary & Hdistinct).
  unfold supplied in *.
  destruct s as [P T R n]. simpl in *.
  destruct (PokemonService.update id data _) as [r s'] eqn:Hrun.
  destruct (JS.truthy_string (u_primaryTypeId data)) eqn:Hp;
    [destruct (Hprimary eq_refl) as (t1 & Hparse1 & Htype1)|];
  (destruct (JS.truthy_string (u_secondaryTypeId data)) eqn:Hs;
    [destruct (Hsecondary eq_refl) as (t2 & Hparse2 & Htype2)|]).
  all: clear Hprimary Hsecondary.
  all: run.
  all: try by (exfalso; contradict_store).
  all: try by (exfalso; contradict_name).
  all: try by (exfalso; eapply Hdistinct; split; eauto).
  all: try (eexists _, _; split; [done|]; simpl; congruence).
  all: exfalso.
  all: match goal with
       | H : (_, _) ∈ {[ _ ]} ∪ filter _ _ |- _ =>
           apply elem_of_union in H as [H%elem_of_singleton|H];
           [simplify_eq; by eapply Hdistinct|by contradict_store]
       end.
Qed.

(** C8.  An [update] of an existing pokemon that supplies a name fails
    with a conflict exactly when another pokemon owns that name; the error
    is then the name conflict and the store is as it was.  Supplying the
    pokemon's own name is no conflict: the update returns, when its type
    references are in order. *)
Theorem update_name_conflict (id : Z) (data : UpdatePokemonInput) (s : Store) (nm : string) :
  WF s → is_Some (pokemon s !! id) → u_name data = Some nm → nm ≠ ""%string →
  ((∃ e s', PokemonService.update id data s = (Err e, s') ∧ kind_of e = Conflict)
   ↔ ∃ j q, j ≠ id ∧ pokemon s !! j = Some q ∧ name q = nm)
  ∧ ((∃ j q, j ≠ id ∧ pokemon s !! j = Some q ∧ name q = nm) →
     PokemonService.update id data s = (Err (JaExistePokemonComNome nm), s))
  ∧ (∀ p, pokemon s !! id = Some p → name p = nm →
          references_ok s (u_primaryTypeId data) (u_secondaryTypeId data) →
          ∃ h s', PokemonService.update id data s = (Ok h, s')
                  ∧ pokemon s' !! id = Some (PokemonService.updateData data p)).
Proof.
  intros Hwf Hid Hnm Hnonempty.
  pose proof (owned_by_other_iff s id nm Hwf) as Hiff.
  assert ((∃ j q, j ≠ id ∧ pokemon s !! j = Some q ∧ name q = nm) →
    PokemonService.update id data s = (Err (JaExistePokemonComNome nm), s)) as Hconflict.
  { intros Hother%Hiff. destruct s as [P T R n].
    destruct (PokemonService.update id data _) as [r s'] eqn:Hrun. run.
    all: try by (exfalso; contradict_store).
    all: simpl in *; congruence. }
  split_and!; [split|done|].
  - intros (e & s' & Hrun & Hkind). apply Hiff. destruct s as [P T R n]. run.
    all: done.
  - intros Hother. eexists _, _. by rewrite (Hconflict Hother).
  - intros p Hp Hown Hreferences.
    assert (name_free_for s id data) as Hfree.
    { intros nm' j q Hnm' Hj Hq. apply (wf_name s Hwf j id q p Hj Hp). congruence. }
    destruct (update_returns id data s p Hwf Hp Hfree Hreferences) as (h & s' & Hrun & Hrow).
    exists h, s'. split; [done|]. by rewrite Hrow, lookup_insert_eq.
Qed.

(** ** addType and removeType *)

(** C6.  On a consistent store [addType] throws: not found when the
    pokemon or the type is missing; the conflict when the pokemon already
    has the type; and, for an existing type that the pokemon does not
    have, the invariant violation when the pokemon has two types. *)
Theorem addType_errors (pokemonId typeId : Z) (s : Store) :
  WF s →
  (count s pokemonId = 2%nat → (pokemonId, typeId) ∉ pokemonType s →
   is_Some (type s !! typeId) →
   PokemonService.addType pokemonId typeId s = (Err MaximoDoisTipos, s)
   ∧ kind_of MaximoDoisTipos = InvariantViolation)
  ∧ ((pokemonId, typeId) ∈ pokemonType s →
     PokemonService.addType pokemonId typeId s = (Err PokemonJaPossuiEsteTipo, s)
     ∧ kind_of PokemonJaPossuiEsteTipo = Conflict)
  ∧ (pokemon s !! pokemonId = None ∨ type s !! typeId = None →
     ∃ e, PokemonService.addType pokemonId typeId s = (Err e, s)
          ∧ kind_of e = NotFound).
Proof.
  intros Hwf. split_and!.
  - intros Hcount Hnew Htype. split; [|done].
    assert (is_Some (pokemon s !! pokemonId)) as Hpokemon.
    { destruct (pokemon s !! pokemonId) eqn:Hnone; [by eexists|].
      unfold count, assignments in Hcount.
      rewrite (no_rows_of_missing s pokemonId Hwf Hnone), size_empty in Hcount.
      lia. }
    unfold count, assignments in Hcount. destruct s as [P T R n].
    destruct (PokemonService.addType _ _ _) as [r s'] eqn:Hrun. run.
    all: try by (exfalso; contradict_store).
    all: done.
  - intros Hin. split; [|done].
    pose proof (wf_pokemonId s Hwf _ Hin) as Hpokemon.
    pose proof (wf_typeId s Hwf _ Hin) as Htype.
    simpl in Hpokemon, Htype. destruct s as [P T R n].
    destruct (PokemonService.addType _ _ _) as [r s'] eqn:Hrun. run.
    all: try by (exfalso; contradict_store).
    all: done.
  - intros Hmissing.
    destruct s as [P T R n].
    destruct (PokemonService.addType _ _ _) as [r s'] eqn:Hrun.
    destruct Hmissing as [Hmissing|Hmissing]; run.
    all: try by (exfalso; contradict_store).
    all: by eexists.
Qed.

(** C7.  [removeType] on a pokemon with exactly one type throws the
    invariant violation, whatever the type id, and leaves the store, and
    with it the one assignment, as it was. *)
Theorem removeType_last_type (pokemonId typeId : Z) (s : Store) :
  is_Some (pokemon s !! pokemonId) → count s pokemonId = 1%nat →
  PokemonService.removeType pokemonId typeId s = (Err MinimoUmTipo, s)
  ∧ kind_of MinimoUmTipo = InvariantViolation.
Proof.
  intros Hpokemon Hcount. split; [|done].
  unfold count, assignments in Hcount. destruct s as [P T R n].
  destruct (PokemonService.removeType _ _ _) as [r s'] eqn:Hrun. run.
  all: try by (exfalso; contradict_store).
  all: done.
Qed.

(** C10.  [removeType] on a pokemon with two types and a type id that is
    not assigned to it passes the count check and then fails in the
    storage layer, which finds no record to delete: the error is none of
    the typed failures, and the store is as it was. *)
Theorem removeType_unassigned_type (pokemonId typeId : Z) (s : Store) :
  is_Some (pokemon s !! pokemonId) → count s pokemonId = 2%nat →
  (pokemonId, typeId) ∉ pokemonType s →
  PokemonService.removeType pokemonId typeId s = (Err P2025, s)
  ∧ kind_of P2025 = Internal
  ∧ kind_of P2025 ∉ [NotFound; Conflict; InvariantViolation; ValidationFailure].
Proof.
  intros Hpokemon Hcount Hnew. split_and!.
  - unfold count, assignments in Hcount. destruct s as [P T R n].
    destruct (PokemonService.removeType _ _ _) as [r s'] eqn:Hrun. run.
    all: try by (exfalso; contradict_store).
    all: done.
  - done.
  - simpl. rewrite !elem_of_cons, elem_of_nil. naive_solver.
Qed.

(** ** findMany *)

#[local] Instance id_asc_trans : Transitive id_asc.
Proof. intros a b c. unfold id_asc. lia. Qed.

#[local] Instance id_asc_total : Total id_asc.
Proof. intros a b. unfold id_asc. lia. Qed.

Lemma ordered_matches_sorted s w : StronglySorted id_asc (ordered_matches s w).
Proof. apply (StronglySorted_merge_sort id_asc). Qed.

Lemma elem_of_ordered_matches s w kv :
  kv ∈ ordered_matches s w ↔ pokemon s !! kv.1 = Some kv.2 ∧ matches s w kv = true.
Proof.
  unfold ordered_matches. rewrite (merge_sort_Permutation id_asc).
  rewrite list_elem_of_filter. destruct kv as [i p]. simpl.
  rewrite elem_of_map_to_list. tauto.
Qed.

Lemma StronglySorted_take {A} (R : relation A) n l :
  StronglySorted R l → StronglySorted R (take n l).
Proof.
  intros Hl. rewrite <-(take_drop n l) in Hl. by apply StronglySorted_app_1_l in Hl.
Qed.

Lemma StronglySorted_drop {A} (R : relation A) n l :
  StronglySorted R l → StronglySorted R (drop n l).
Proof.
  intros Hl. rewrite <-(take_drop n l) in Hl. by apply StronglySorted_app_1_r in Hl.
Qed.

(** [Math.ceil(a / b)] for a positive [b] is the least [k] with
    [a <= k * b]. *)
Lemma ceil_div_positive a b :
  1 ≤ b → ∃ k, JS.ceil_div a b = JS.Num k ∧ (k - 1) * b < a ≤ k * b.
Proof.
  intros Hb. exists (- (- a / b)). unfold JS.ceil_div.
  destruct (b =? 0) eqn:Hzero; [lia|]. split; [done|].
  pose proof (Z.div_mod (- a) b ltac:(lia)) as Hdiv.
  pose proof (Z.mod_pos_bound (- a) b ltac:(lia)) as Hmod. nia.
Qed.

(** C5.  For a page number and a page size of at least 1, [findMany]
    returns: as data the slice of at most [limit] entities that starts at
    offset [(page - 1) * limit] of the matching entities in ascending order
    of id; as total the number of matching entities; as [totalPages] the
    ceiling of [total / limit]; [hasNext] and [hasPrev] as [page * limit <
    total] and [1 < page].  Past the last page the data is empty and the
    call still returns. *)
Theorem findMany_page (filters : PokemonQuery) (s : Store) :
  let page_ := default 1 (q_page filters) in
  let limit_ := default 10 (q_limit filters) in
  let rows := ordered_matches s (PokemonService.where_of filters) in
  1 ≤ page_ → 1 ≤ limit_ →
  (supplied (q_typeId filters) → is_Some (PokemonService.parseInt (q_typeId filters))) →
  ∃ pg k,
    PokemonService.findMany filters s = (Ok pg, s)
    ∧ StronglySorted id_asc rows
    ∧ (∀ kv, kv ∈ rows ↔
         pokemon s !! kv.1 = Some kv.2
         ∧ matches s (PokemonService.where_of filters) kv = true)
    ∧ data pg = hydrate s <$>
        take (Z.to_nat limit_) (drop (Z.to_nat ((page_ - 1) * limit_)) rows)
    ∧ Z.of_nat (length (data pg)) ≤ limit_
    ∧ StronglySorted (λ a b, pw_id a ≤ pw_id b) (data pg)
    ∧ page (pagination pg) = page_
    ∧ limit (pagination pg) = limit_
    ∧ total (pagination pg) = Z.of_nat (length rows)
    ∧ totalPages (pagination pg) = JS.Num k
    ∧ (k - 1) * limit_ < Z.of_nat (length rows) ≤ k * limit_
    ∧ (hasNext (pagination pg) = true ↔ page_ * limit_ < Z.of_nat (length rows))
    ∧ (hasPrev (pagination pg) = true ↔ 1 < page_)
    ∧ (k < page_ → data pg = [] ∧ hasNext (pagination pg) = false).
Proof.
  intros page_ limit_ rows Hpage Hlimit Htype.
  destruct (ceil_div_positive (Z.of_nat (length rows)) limit_ Hlimit) as (k & Hceil & Hk).
  assert (where_PokemonType_some_typeId (PokemonService.where_of filters) ≠ Some None)
    as Hwhere.
  { unfold PokemonService.where_of; simpl.
    destruct (JS.truthy_string (q_typeId filters)) eqn:Htruthy; [|done].
    destruct (Htype Htruthy) as [t ->]. done. }
  set (slice := take (Z.to_nat limit_) (drop (Z.to_nat ((page_ - 1) * limit_)) rows)).
  assert (PokemonService.findMany filters s
          = (Ok (mkPage (hydrate s <$> slice)
                   (mkPagination page_ limit_ (Z.of_nat (length rows))
                      (JS.ceil_div (Z.of_nat (length rows)) limit_)
                      (page_ * limit_ <? Z.of_nat (length rows))
                      (1 <? page_))), s)) as Hrun.
  { unfold PokemonService.findMany, pokemon_findMany, pokemon_count, bind, gets, ret.
    fold page_ limit_. rewrite !decide_False by done.
    destruct ((page_ - 1) * limit_ <? 0) eqn:Hskip; [apply Z.ltb_lt in Hskip; nia|].
    unfold window. destruct (0 <=? limit_) eqn:Htake; [done|].
    apply Z.leb_gt in Htake. lia. }
  eexists _, k. split; [exact Hrun|]. simpl.
  split_and!; try done; try lia.
  - apply ordered_matches_sorted.
  - apply elem_of_ordered_matches.
  - rewrite length_fmap. unfold slice. rewrite length_take. lia.
  - apply (StronglySorted_fmap _ id_asc); [done|]. unfold slice.
    apply StronglySorted_take, StronglySorted_drop, ordered_matches_sorted.
  - intros Hpast. split; [|apply Z.ltb_ge; nia].
    assert (Z.of_nat (length rows) ≤ (page_ - 1) * limit_) by nia.
    unfold slice. rewrite drop_ge by lia. by rewrite take_nil.
Qed.

(** ** The service on examples *)

(** Twenty-five entities in pages of ten. *)
Example findMany_first_page :
  Sample.summary (PokemonService.findMany (Sample.query 1 10) Sample.twenty_five)
  = Some ([1; 2; 3; 4; 5; 6; 7; 8; 9; 10],
          mkPagination 1 10 25 (JS.Num 3) true false).
Proof. vm_compute. reflexivity. Qed.

Example findMany_last_page :
  Sample.summary (PokemonService.findMany (Sample.query 3 10) Sample.twenty_five)
  = Some ([21; 22; 23; 24; 25], mkPagination 3 10 25 (JS.Num 3) false true).
Proof. vm_compute. reflexivity. Qed.

Example findMany_past_last_page :
  Sample.summary (PokemonService.findMany (Sample.query 4 10) Sample.twenty_five)
  = Some ([], mkPagination 4 10 25 (JS.Num 3) false true).
Proof. vm_compute. reflexivity. Qed.

Example findMany_search :
  Sample.summary
    (PokemonService.findMany
       (mkPokemonQuery None None (Some "SQUIR"%string) (Some "2"%string)) Sample.two)
  = Some ([2], mkPagination 1 10 1 (JS.Num 1) false false).
Proof. vm_compute. reflexivity. Qed.

(** A page size of 0 divides by zero. *)
Example findMany_limit_zero :
  Sample.summary (PokemonService.findMany (Sample.query 1 0) Sample.two)
  = Some ([], mkPagination 1 0 2 JS.Infinity true false).
Proof. vm_compute. reflexivity. Qed.

(** The sample session leaves Squirtle alone, with the types water and
    grass. *)
Example session_result :
  map_to_list (name <$> pokemon (run_ops Sample.session Sample.empty))
  = [(2, "Squirtle"%string)]
  ∧ elements (pokemonType (run_ops Sample.session Sample.empty)) = [(2, 3); (2, 2)].
Proof. vm_compute. done. Qed.

(** An empty name is falsy: [update] does not look for its owner, and
    the unique index on names is what rejects the row. *)
Lemma update_empty_name id data s j q :
  is_Some (pokemon s !! id) → u_name data = Some ""%string →
  j ≠ id → pokemon s !! j = Some q → name q = ""%string →
  PokemonService.update id data s = (Err (P2002 Pokemon_name), s).
Proof.
  intros Hid Hnm Hne Hj Hq. destruct s as [P T R n]. simpl in *.
  assert (∀ old, is_Some
    (find_by_name (name (PokemonService.updateData data old)) (delete id P))) as Htaken.
  { intros old. apply (find_by_name_is_Some _ _ j q); [by rewrite lookup_delete_ne|].
    by rewrite name_updateData, Hnm. }
  destruct (PokemonService.update id data _) as [r s'] eqn:Hrun. run.
  all: try by (exfalso; contradict_store).
  all: try done.
  all: match goal with
       | H : find_by_name (name (PokemonService.updateData _ ?old)) _ = None |- _ =>
           destruct (Htaken old) as [kv Hkv]; congruence
       end.
Qed.

Example update_empty_name_example :
  PokemonService.update 1 (Sample.update_of (Some ""%string) None None) Sample.nameless
  = (Err (P2002 Pokemon_name), Sample.nameless).
Proof. vm_compute. reflexivity. Qed.

(** ** The theorems on the sample stores *)

Lemma Sample_two_Inv : Inv Sample.two.
Proof. apply create_Inv, create_Inv, Inv_empty. Qed.

Lemma Sample_two_charizard : pokemon Sample.two !! 1 = Some Sample.charizard_row.
Proof. vm_compute. reflexivity. Qed.

Lemma Sample_two_squirtle : is_Some (pokemon Sample.two !! 2).
Proof. vm_compute. by eexists. Qed.

Lemma Sample_two_count_1 : count Sample.two 1 = 2%nat.
Proof. vm_compute. reflexivity. Qed.

Lemma Sample_two_count_2 : count Sample.two 2 = 1%nat.
Proof. vm_compute. reflexivity. Qed.

Lemma Sample_two_not_grass : (1, 3) ∉ pokemonType Sample.two.
Proof. apply (bool_decide_unpack _). vm_compute. exact I. Qed.

Lemma Sample_two_type t : t ∈ [1; 2; 3; 4] → is_Some (type Sample.two !! t).
Proof.
  rewrite !elem_of_cons, elem_of_nil.
  intros [->|[->|[->|[->|[]]]]]; vm_compute; by eexists.
Qed.

Lemma cardinality_invariant_witness :
  WF Sample.empty ∧ Card Sample.empty
  ∧ is_Some (pokemon (run_ops Sample.session Sample.empty) !! 2)
  ∧ (count (run_ops Sample.session Sample.empty) 2 = 1%nat
     ∨ count (run_ops Sample.session Sample.empty) 2 = 2%nat).
Proof.
  assert (is_Some (pokemon (run_ops Sample.session Sample.empty) !! 2)) as Hsome.
  { vm_compute. by eexists. }
  destruct (Inv_empty Sample.types 1) as [Hwf Hcard].
  exact (conj Hwf (conj Hcard (conj Hsome
    (cardinality_invariant Sample.session Sample.empty 2 Hwf Hcard Hsome)))).
Defined.

Lemma create_existing_name_witness :
  pokemon Sample.two !! 1 = Some Sample.charizard_row
  ∧ name Sample.charizard_row = c_name Sample.charizard
  ∧ PokemonService.create Sample.charizard Sample.two
    = (Err (JaExistePokemonComNome "Charizard"), Sample.two).
Proof.
  exact (conj Sample_two_charizard (conj eq_refl
    (proj1 (create_existing_name Sample.charizard Sample.two 1
              Sample.charizard_row Sample_two_charizard eq_refl)))).
Defined.

Lemma create_equal_references_witness :
  WF Sample.two
  ∧ JS.parseInt (c_primaryTypeId Sample.charmander) = Some 1
  ∧ PokemonService.parseInt (c_secondaryTypeId Sample.charmander) = Some 1
  ∧ is_Some (type Sample.two !! 1)
  ∧ ∃ e s',
      PokemonService.create Sample.charmander Sample.two = (Err e, s')
      ∧ pokemon s' = pokemon Sample.two
      ∧ pokemonType s' = pokemonType Sample.two.
Proof.
  assert (is_Some (type Sample.two !! 1)) as Htype
    by (apply Sample_two_type; set_solver).
  pose proof (proj1 Sample_two_Inv) as Hwf.
  refine (conj Hwf (conj eq_refl (conj eq_refl (conj Htype _)))).
  destruct (create_equal_references Sample.charmander Sample.two 1 Hwf eq_refl eq_refl Htype)
    as (e & s' & Hrun & Hpokemon & Hrows & _).
  exact (ex_intro _ e (ex_intro _ s' (conj Hrun (conj Hpokemon Hrows)))).
Defined.

Lemma update_replaces_types_witness :
  WF Sample.two ∧ is_Some (pokemon Sample.two !! 1)
  ∧ name_free_for Sample.two 1 (Sample.update_of None (Some "2"%string) None)
  ∧ resolves Sample.two (Some "2"%string) 2
  ∧ ∃ h s',
      PokemonService.update 1 (Sample.update_of None (Some "2"%string) None) Sample.two
      = (Ok h, s')
      ∧ assignments s' 1 = {[ (1, 2) ]}.
Proof.
  assert (is_Some (pokemon Sample.two !! 1)) as Hsome
    by (rewrite Sample_two_charizard; by eexists).
  assert (name_free_for Sample.two 1 (Sample.update_of None (Some "2"%string) None))
    as Hfree by (intros nm j q Hnm; discriminate Hnm).
  assert (resolves Sample.two (Some "2"%string) 2) as Hresolves.
  { split; [reflexivity|]. apply Sample_two_type. set_solver. }
  assert (¬ supplied (u_secondaryTypeId (Sample.update_of None (Some "2"%string) None)))
    as Hnone by (intros Hsupplied; discriminate Hsupplied).
  pose proof (proj1 Sample_two_Inv) as Hwf.
  exact (conj Hwf (conj Hsome (conj Hfree (conj Hresolves
    (proj1 (update_replaces_types 1
              (Sample.update_of None (Some "2"%string) None)
              Sample.two Hwf Hsome Hfree) 2 Hresolves Hnone))))).
Defined.

Lemma findMany_page_witness :
  1 ≤ 3 ∧ 1 ≤ 10
  ∧ ∃ pg,
      PokemonService.findMany (Sample.query 3 10) Sample.twenty_five
      = (Ok pg, Sample.twenty_five)
      ∧ Z.of_nat (length (data pg)) ≤ 10
      ∧ StronglySorted (λ a b, pw_id a ≤ pw_id b) (data pg).
Proof.
  assert (1 ≤ 3) as Hpage by lia.
  assert (1 ≤ 10) as Hlimit by lia.
  assert (supplied (q_typeId (Sample.query 3 10)) →
          is_Some (PokemonService.parseInt (q_typeId (Sample.query 3 10)))) as Htype
    by (intros Hsupplied; discriminate Hsupplied).
  refine (conj Hpage (conj Hlimit _)).
  destruct (findMany_page (Sample.query 3 10) Sample.twenty_five Hpage Hlimit Htype)
    as (pg & k & Hrun & _ & _ & _ & Hlength & Hsorted & _).
  exact (ex_intro _ pg (conj Hrun (conj Hlength Hsorted))).
Defined.

Lemma addType_errors_witness :
  WF Sample.two
  ∧ count Sample.two 1 = 2%nat ∧ ((1, 3) ∉ pokemonType Sample.two)
  ∧ is_Some (type Sample.two !! 3)
  ∧ PokemonService.addType 1 3 Sample.two = (Err MaximoDoisTipos, Sample.two).
Proof.
  assert (is_Some (type Sample.two !! 3)) as Htype
    by (apply Sample_two_type; set_solver).
  pose proof (proj1 Sample_two_Inv) as Hwf.
  exact (conj Hwf (conj Sample_two_count_1 (conj Sample_two_not_grass (conj Htype
    (proj1 (proj1 (addType_errors 1 3 Sample.two Hwf)
              Sample_two_count_1 Sample_two_not_grass Htype)))))).
Defined.

Lemma removeType_last_type_witness :
  is_Some (pokemon Sample.two !! 2) ∧ count Sample.two 2 = 1%nat
  ∧ PokemonService.removeType 2 2 Sample.two = (Err MinimoUmTipo, Sample.two).
Proof.
  exact (conj Sample_two_squirtle (conj Sample_two_count_2
    (proj1 (removeType_last_type 2 2 Sample.two Sample_two_squirtle Sample_two_count_2)))).
Defined.

Lemma update_name_conflict_witness :
  WF Sample.two ∧ is_Some (pokemon Sample.two !! 1)
  ∧ u_name (Sample.update_of (Some "Squirtle"%string) None None) = Some "Squirtle"%string
  ∧ "Squirtle"%string ≠ ""%string
  ∧ PokemonService.update 1 (Sample.update_of (Some "Squirtle"%string) None None) Sample.two
    = (Err (JaExistePokemonComNome "Squirtle"), Sample.two).
Proof.
  assert (is_Some (pokemon Sample.two !! 1)) as Hsome
    by (rewrite Sample_two_charizard; by eexists).
  assert ("Squirtle"%string ≠ ""%string) as Hnonempty by discriminate.
  assert (∃ j q, j ≠ 1 ∧ pokemon Sample.two !! j = Some q ∧ name q = "Squirtle"%string)
    as Hother.
  { destruct Sample_two_squirtle as [q Hq]. exists 2, q.
    split; [lia|]. split; [exact Hq|].
    vm_compute in Hq. injection Hq as <-. reflexivity. }
  pose proof (proj1 Sample_two_Inv) as Hwf.
  exact (conj Hwf (conj Hsome (conj eq_refl (conj Hnonempty
    (proj1 (proj2 (update_name_conflict 1
                     (Sample.update_of (Some "Squirtle"%string) None None)
                     Sample.two "Squirtle" Hwf Hsome eq_refl Hnonempty)) Hother))))).
Defined.

Lemma create_coerces_falsy_witness :
  ∃ h s',
    PokemonService.create Sample.squirtle Sample.empty = (Ok h, s')
    ∧ height (pw_pokemon h) = None
    ∧ description (pw_pokemon h) = None
    ∧ imageUrl (pw_pokemon h) = None.
Proof.
  destruct (PokemonService.create Sample.squirtle Sample.empty) as [[h|e] s'] eqn:Hrun;
    [|vm_compute in Hrun; discriminate Hrun].
  exists h, s'.
  destruct (create_coerces_falsy _ _ _ _ Hrun) as (_ & Hheight & _ & Hdesc & Himage & _).
  exact (conj eq_refl (conj (Hheight eq_refl) (conj (Hdesc eq_refl) (Himage eq_refl)))).
Defined.

Lemma removeType_unassigned_type_witness :
  is_Some (pokemon Sample.two !! 1) ∧ count Sample.two 1 = 2%nat
  ∧ ((1, 3) ∉ pokemonType Sample.two)
  ∧ PokemonService.removeType 1 3 Sample.two = (Err P2025, Sample.two).
Proof.
  assert (is_Some (pokemon Sample.two !! 1)) as Hsome
    by (rewrite Sample_two_charizard; by eexists).
  exact (conj Hsome (conj Sample_two_count_1 (conj Sample_two_not_grass
    (proj1 (removeType_unassigned_type 1 3 Sample.two
              Hsome Sample_two_count_1 Sample_two_not_grass))))).
Defined.

(** * More of the service *)

(** ** findById *)

Lemma hydrate_rows s kv :
  (pw_PokemonType (hydrate s kv)).*1 = elements (types_of kv.1 (pokemonType s)).
Proof.
  unfold hydrate; simpl. rewrite <-list_fmap_compose.
  rewrite <-(list_fmap_id (elements _)) at 2. by apply list_fmap_ext.
Qed.

(** [findById] throws not found exactly for the ids of no pokemon; for
    the id of a pokemon it returns its row with one entry for each of its
    rows in the join table, each with the type the row refers to, and
    leaves the store as it is. *)
Theorem findById_read_model (id : Z) (s : Store) :
  (pokemon s !! id = None →
   PokemonService.findById id s = (Err PokemonNaoEncontrado, s))
  ∧ (∀ p, pokemon s !! id = Some p →
       ∃ h, PokemonService.findById id s = (Ok h, s)
            ∧ pw_id h = id ∧ pw_pokemon h = p
            ∧ NoDup (pw_PokemonType h).*1
            ∧ (∀ r, r ∈ (pw_PokemonType h).*1 ↔ r ∈ assignments s id)
            ∧ length (pw_PokemonType h) = count s id
            ∧ (∀ r ty, (r, ty) ∈ pw_PokemonType h → ty = type s !! typeId r)).
Proof.
  split.
  - intros Hnone. unfold PokemonService.findById, bind, pokemon_findUnique_include, gets.
    by rewrite Hnone.
  - intros p Hp. exists (hydrate s (id, p)). split_and!; try done.
    + unfold PokemonService.findById, bind, pokemon_findUnique_include, gets.
      by rewrite Hp.
    + rewrite hydrate_rows. apply NoDup_elements.
    + intros r. rewrite hydrate_rows. apply elem_of_elements.
    + rewrite <-(length_fmap fst), hydrate_rows. done.
    + intros r ty [r' [[= -> ->] _]]%list_elem_of_fmap. done.
Qed.

(** ** delete *)

(** [delete] throws not found for the id of no pokemon.  For the id of a
    pokemon it returns: the pokemon and all its rows in the join table are
    gone, [findById] no longer finds it, and every other pokemon keeps its
    row and its types. *)
Theorem delete_removes (id : Z) (s : Store) :
  (pokemon s !! id = None →
   PokemonService.delete id s = (Err PokemonNaoEncontrado, s))
  ∧ (is_Some (pokemon s !! id) →
     ∃ s', PokemonService.delete id s = (Ok tt, s')
           ∧ pokemon s' = delete id (pokemon s)
           ∧ assignments s' id = ∅
           ∧ (∀ j, j ≠ id → assignments s' j = assignments s j)
           ∧ type s' = type s
           ∧ PokemonService.findById id s' = (Err PokemonNaoEncontrado, s')).
Proof.
  destruct s as [P T R n]. split.
  - intros Hnone. destruct (PokemonService.delete id _) as [r s'] eqn:Hrun. run.
    all: try by (exfalso; contradict_store).
    all: done.
  - intros Hsome.
    assert (types_of id (filter (λ r, pokemonId r ≠ id) R) = ∅) as Hgone
      by apply types_of_deleteMany.
    destruct (PokemonService.delete id _) as [r s'] eqn:Hrun. run.
    all: try by (exfalso; contradict_store).
    all: try done.
    eexists. split_and!; try done.
    + intros j Hne. unfold assignments; simpl. by apply types_of_deleteMany_ne.
    + unfold PokemonService.findById, bind, pokemon_findUnique_include, gets; simpl.
      by rewrite lookup_delete_eq.
Qed.

(** ** create *)

Lemma types_of_insert_eq i t rows :
  types_of i ({[ (i, t) ]} ∪ rows) = {[ (i, t) ]} ∪ types_of i rows.
Proof.
  apply set_eq. intros r. rewrite elem_of_union, !elem_of_types_of. set_solver.
Qed.

Lemma findById_hydrate id s p :
  pokemon s !! id = Some p →
  PokemonService.findById id s = (Ok (hydrate s (id, p)), s).
Proof.
  intros Hp. unfold PokemonService.findById, bind, pokemon_findUnique_include, gets.
  by rewrite Hp.
Qed.

(** The store and the read model that a [create] that returns leaves. *)
Lemma create_effect data s s' h :
  WF s → PokemonService.create data s = (Ok h, s') →
  ∃ row t1,
    pokemon s !! pokemon_id_seq s = None
    ∧ pokemon s' = <[pokemon_id_seq s := row]> (pokemon s)
    ∧ type s' = type s
    ∧ h = hydrate s' (pokemon_id_seq s, row)
    ∧ JS.parseInt (c_primaryTypeId data) = Some t1
    ∧ ((¬ supplied (c_secondaryTypeId data)
        ∧ pokemonType s' = {[ (pokemon_id_seq s, t1) ]} ∪ pokemonType s)
       ∨ ∃ t2, PokemonService.parseInt (c_secondaryTypeId data) = Some t2
           ∧ t2 ≠ t1
           ∧ pokemonType s'
             = {[ (pokemon_id_seq s, t2) ]} ∪ ({[ (pokemon_id_seq s, t1) ]} ∪ pokemonType s)).
Proof.
  intros Hwf Hrun. destruct s as [P T R n]. run.
  all: match goal with
       | H : _ <$> _ = Some _ |- _ => rewrite lookup_insert_eq in H; simpl in H
       end; simplify_eq.
  all: eexists _, _; split_and!; try done.
  - right. eexists. split_and!; [done| |done]. intros ->. set_solver.
  - left. split; [|done]. unfold supplied. congruence.
Qed.

(** When [create] returns on a consistent store: the new pokemon has the
    next id of the sequence, which no pokemon had; [findById] on that id
    returns the same read model; its types are the primary reference and,
    when one is supplied, the different secondary reference; every other
    pokemon keeps its row and its types. *)
Theorem create_read_back (data : CreatePokemonInput) (s s' : Store) (h : PokemonWithTypes) :
  WF s → PokemonService.create data s = (Ok h, s') →
  pw_id h = pokemon_id_seq s
  ∧ pokemon s !! pw_id h = None
  ∧ pokemon s' = <[pw_id h := pw_pokemon h]> (pokemon s)
  ∧ type s' = type s
  ∧ PokemonService.findById (pw_id h) s' = (Ok h, s')
  ∧ (∀ j, j ≠ pw_id h → assignments s' j = assignments s j)
  ∧ ∃ t1, JS.parseInt (c_primaryTypeId data) = Some t1
      ∧ ((¬ supplied (c_secondaryTypeId data)
          ∧ assignments s' (pw_id h) = {[ (pw_id h, t1) ]})
         ∨ ∃ t2, PokemonService.parseInt (c_secondaryTypeId data) = Some t2
             ∧ t2 ≠ t1
             ∧ assignments s' (pw_id h) = {[ (pw_id h, t1); (pw_id h, t2) ]}).
Proof.
  intros Hwf Hrun.
  destruct (create_effect data s s' h Hwf Hrun)
    as (row & t1 & Hfresh & Hpokemon & Htype & -> & Hparse & Hrows).
  pose proof (no_rows_of_missing s _ Hwf Hfresh) as Hnone.
  simpl. split_and!; try done.
  - apply findById_hydrate. by rewrite Hpokemon, lookup_insert_eq.
  - intros j Hne. unfold assignments.
    destruct Hrows as [[_ ->]|(t2 & _ & _ & ->)];
      by rewrite ?types_of_insert_ne by done.
  - exists t1. split; [done|]. unfold assignments.
    destruct Hrows as [[Hnot ->]|(t2 & Hparse2 & Hne & ->)].
    + left. split; [done|]. rewrite types_of_insert_eq, Hnone. set_solver.
    + right. exists t2. split_and!; try done.
      rewrite !types_of_insert_eq, Hnone. set_solver.
Qed.

(** With a free name, [create] with a primary reference to a missing type
    throws the error of the primary type, and with a primary reference
    that resolves and a secondary reference to a missing type the error of
    the secondary type; in both cases before any write. *)
Theorem create_missing_type (data : CreatePokemonInput) (s : Store) :
  (∀ i p, pokemon s !! i = Some p → name p ≠ c_name data) →
  (dangling s (Some (c_primaryTypeId data)) →
   PokemonService.create data s = (Err TipoPrimarioNaoEncontrado, s))
  ∧ ((∃ t, resolves s (Some (c_primaryTypeId data)) t) →
     dangling s (c_secondaryTypeId data) →
     PokemonService.create data s = (Err TipoSecundarioNaoEncontrado, s)).
Proof.
  intros Hfree%find_by_name_None. destruct s as [P T R n]. simpl in *. split.
  - intros (t & Hparse & Hnone). simpl in Hparse.
    destruct (PokemonService.create data _) as [r s'] eqn:Hrun. run.
    all: try by (exfalso; contradict_store).
    all: done.
  - intros (t & Hparse & Htype) (t2 & Hparse2 & Hnone). simpl in Hparse.
    pose proof (parseInt_truthy _ _ Hparse2) as Htruthy.
    destruct (PokemonService.create data _) as [r s'] eqn:Hrun. run.
    all: try by (exfalso; contradict_store).
    all: done.
Qed.

(** ** Every method *)

(** Follows a method to each of its results. *)
Ltac run_result Hrun :=
  match goal with
  | |- context [?m ?s] =>
      match type of (m s) with
      | (Result _ * Store)%type => destruct (m s) as [[?|?] ?] eqn:Hrun
      end
  end.

(** A call that throws leaves no write behind: the three tables are as
    they were before the call. *)
Theorem thrown_leaves_tables (op : Op) (s : Store) (e : Error) :
  thrown op s = Some e →
  pokemon (run_op op s) = pokemon s
  ∧ pokemonType (run_op op s) = pokemonType s
  ∧ type (run_op op s) = type s.
Proof.
  destruct s as [P T R n].
  destruct op; unfold thrown, error_of, run_op; run_result Hrun; simpl; intros [= ->].
  - pose proof (findMany_state filters (mkStore P T R n)) as Hstate.
    rewrite Hrun in Hstate. simpl in Hstate. by subst.
  - pose proof (findById_state id (mkStore P T R n)) as Hstate.
    rewrite Hrun in Hstate. simpl in Hstate. by subst.
  - run; try done; by (exfalso; contradict_store).
  - run; try done; by (exfalso; contradict_store).
  - run; done.
  - run; done.
  - run; done.
Qed.

Lemma run_op_type op s : type (run_op op s) = type s.
Proof.
  destruct s as [P T R n]. destruct op; unfold run_op; run_result Hrun; simpl.
  1,2: pose proof (findMany_state filters (mkStore P T R n)) as Hstate;
       rewrite Hrun in Hstate; simpl in Hstate; by subst.
  1,2: pose proof (findById_state id (mkStore P T R n)) as Hstate;
       rewrite Hrun in Hstate; simpl in Hstate; by subst.
  all: run; done.
Qed.

(** The service never writes the table of types: after every sequence of
    calls it is the table the sequence started with. *)
Theorem types_are_read_only (ops : list Op) (s : Store) :
  type (run_ops ops s) = type s.
Proof.
  revert s. induction ops as [|op ops IH]; intros s; simpl; [done|].
  by rewrite IH, run_op_type.
Qed.

(** Every method that takes the id of a pokemon throws the not-found
    error for an id that no pokemon has, whatever its other arguments,
    and leaves the store as it was. *)
Theorem missing_pokemon (id : Z) (s : Store) :
  pokemon s !! id = None →
  PokemonService.findById id s = (Err PokemonNaoEncontrado, s)
  ∧ (∀ data, PokemonService.update id data s = (Err PokemonNaoEncontrado, s))
  ∧ PokemonService.delete id s = (Err PokemonNaoEncontrado, s)
  ∧ (∀ typeId, PokemonService.addType id typeId s = (Err PokemonNaoEncontrado, s))
  ∧ (∀ typeId, PokemonService.removeType id typeId s = (Err PokemonNaoEncontrado, s)).
Proof.
  intros Hnone.
  assert (PokemonService.findById id s = (Err PokemonNaoEncontrado, s)) as Hfind.
  { unfold PokemonService.findById, bind, pokemon_findUnique_include, gets.
    by rewrite Hnone. }
  split_and!; [done|intros data| |intros typeId|intros typeId].
  - unfold PokemonService.update, bind at 1. by rewrite Hfind.
  - unfold PokemonService.delete, bind at 1. by rewrite Hfind.
  - unfold PokemonService.addType, bind at 1. by rewrite Hfind.
  - unfold PokemonService.removeType, bind at 1. by rewrite Hfind.
Qed.

(** After every sequence of calls on a consistent store no two pokemon
    share a name, and every row of the join table refers to a pokemon and
    to a type that exist. *)
Theorem schema_invariant (ops : list Op) (s0 : Store) :
  WF s0 → Card s0 →
  (∀ i j p q, pokemon (run_ops ops s0) !! i = Some p →
              pokemon (run_ops ops s0) !! j = Some q → name p = name q → i = j)
  ∧ (∀ i t, (i, t) ∈ pokemonType (run_ops ops s0) →
            is_Some (pokemon (run_ops ops s0) !! i)
            ∧ is_Some (type (run_ops ops s0) !! t)).
Proof.
  intros Hwf Hcard.
  destruct (run_ops_Inv ops s0 (conj Hwf Hcard)) as [[Hname Hpokemon Htype _] _].
  split; [done|]. intros i t Hin. split.
  - apply (Hpokemon (i, t) Hin).
  - apply (Htype (i, t) Hin).
Qed.

(** ** update *)

(** The store and the read model that an [update] that returns leaves,
    by the references that it supplies. *)
Lemma update_effect id data s s' h :
  PokemonService.update id data s = (Ok h, s') →
  ∃ old,
    pokemon s !! id = Some old
    ∧ pokemon s' = <[id := PokemonService.updateData data old]> (pokemon s)
    ∧ type s' = type s
    ∧ pokemon_id_seq s' = pokemon_id_seq s
    ∧ h = hydrate s' (id, PokemonService.updateData data old)
    ∧ ((¬ supplied (u_primaryTypeId data) ∧ ¬ supplied (u_secondaryTypeId data)
        ∧ pokemonType s' = pokemonType s)
       ∨ (∃ t1, PokemonService.parseInt (u_primaryTypeId data) = Some t1
            ∧ ¬ supplied (u_secondaryTypeId data)
            ∧ pokemonType s'
              = {[ (id, t1) ]} ∪ filter (λ r, pokemonId r ≠ id) (pokemonType s))
       ∨ (∃ t2, PokemonService.parseInt (u_secondaryTypeId data) = Some t2
            ∧ ¬ supplied (u_primaryTypeId data)
            ∧ pokemonType s'
              = {[ (id, t2) ]} ∪ filter (λ r, pokemonId r ≠ id) (pokemonType s))
       ∨ (∃ t1 t2, PokemonService.parseInt (u_primaryTypeId data) = Some t1
            ∧ PokemonService.parseInt (u_secondaryTypeId data) = Some t2
            ∧ t1 ≠ t2
            ∧ pokemonType s'
              = {[ (id, t2) ]}
                ∪ ({[ (id, t1) ]} ∪ filter (λ r, pokemonId r ≠ id) (pokemonType s)))).
Proof.
  intros Hrun. destruct s as [P T R n]. unfold supplied. run.
  all: match goal with
       | H : _ <$> <[_:=_]> _ !! _ = Some _ |- _ =>
           rewrite lookup_insert_eq in H; simpl in H
       end; simplify_eq.
  all: eexists; split_and!; try done.
  all: repeat match goal with
       | H : _ || _ = false |- _ => apply orb_false_elim in H as [? ?]
       | H : JS.truthy_string _ = false |- _ => apply not_true_iff_false in H
       end.
  all: first
    [ left; by split_and!
    | right; left; eexists; by split_and!
    | right; right; left; eexists; by split_and!
    | right; right; right; eexists _, _; split_and!; try done;
      intros ->; set_solver ].
Qed.

Lemma updateData_empty old : PokemonService.updateData empty_update old = old.
Proof. by destruct old. Qed.

Lemma types_of_replaced_two i t1 t2 rows :
  types_of i ({[ (i, t2) ]} ∪ ({[ (i, t1) ]} ∪ filter (λ r, pokemonId r ≠ i) rows))
  = {[ (i, t1); (i, t2) ]}.
Proof.
  rewrite types_of_insert_eq, types_of_replaced_one. set_solver.
Qed.

Lemma types_of_replaced_ne i j X rows :
  j ≠ i → (∀ r, r ∈ X → r.1 = i) →
  types_of j (X ∪ filter (λ r, pokemonId r ≠ i) rows) = types_of j rows.
Proof.
  intros Hne HX. apply set_eq. intros r.
  rewrite !elem_of_types_of, elem_of_union, elem_of_filter. unfold pokemonId.
  split; [intros [Hj [Hr|[_ Hr]]]|intros [Hj Hr]]; try done.
  - apply HX in Hr. congruence.
  - split; [done|]. right. split; [congruence|done].
Qed.

(** An [update] that supplies nothing returns the pokemon as it is and
    leaves the store as it was. *)
Theorem update_nothing (id : Z) (s : Store) (old : Pokemon) :
  WF s → pokemon s !! id = Some old →
  PokemonService.update id empty_update s = (Ok (hydrate s (id, old)), s).
Proof.
  intros Hwf Hold.
  assert (name_free_for s id empty_update) as Hfree by (intros nm j q [=]).
  assert (references_ok s (u_primaryTypeId empty_update) (u_secondaryTypeId empty_update))
    as Hrefs.
  { split_and!; [intros [=]..|]. intros t [[[=] _] _]. }
  destruct (update_returns id empty_update s old Hwf Hold Hfree Hrefs)
    as (h & s' & Hrun & _).
  destruct (update_effect _ _ _ _ _ Hrun)
    as (old' & Hold' & Hpokemon & Htype & Hseq & -> & Hrows).
  assert (old' = old) as -> by congruence.
  rewrite updateData_empty in *. rewrite insert_id in Hpokemon by done.
  destruct Hrows as [(_ & _ & Hrows)|[(? & [=] & _)|[(? & [=] & _)|(? & ? & [=] & _)]]].
  assert (s' = s) as -> by (destruct s, s'; simpl in *; congruence).
  done.
Qed.

(** When [update] returns, it has written to one pokemon: the row of the
    pokemon is the old row with the supplied properties, [findById]
    returns the same read model, every other pokemon keeps its row and its
    types, and without a type reference the join table is unchanged. *)
Theorem update_frame (id : Z) (data : UpdatePokemonInput) (s s' : Store)
    (h : PokemonWithTypes) :
  PokemonService.update id data s = (Ok h, s') →
  (∃ old, pokemon s !! id = Some old
          ∧ pw_pokemon h = PokemonService.updateData data old
          ∧ pokemon s' !! id = Some (PokemonService.updateData data old))
  ∧ pw_id h = id
  ∧ PokemonService.findById id s' = (Ok h, s')
  ∧ (∀ j, j ≠ id → pokemon s' !! j = pokemon s !! j
                    ∧ assignments s' j = assignments s j)
  ∧ (¬ supplied (u_primaryTypeId data) → ¬ supplied (u_secondaryTypeId data) →
     pokemonType s' = pokemonType s)
  ∧ type s' = type s.
Proof.
  intros Hrun.
  destruct (update_effect _ _ _ _ _ Hrun)
    as (old & Hold & Hpokemon & Htype & Hseq & -> & Hrows).
  split_and!; try done.
  - exists old. split_and!; try done. by rewrite Hpokemon, lookup_insert_eq.
  - apply findById_hydrate. by rewrite Hpokemon, lookup_insert_eq.
  - intros j Hne. split; [by rewrite Hpokemon, lookup_insert_ne|].
    unfold assignments.
    destruct Hrows as [(_ & _ & ->)|[(t1 & _ & _ & ->)|[(t2 & _ & _ & ->)|
                       (t1 & t2 & _ & _ & _ & ->)]]]; [done|..].
    + apply types_of_replaced_ne; [done|]. set_solver.
    + apply types_of_replaced_ne; [done|]. set_solver.
    + rewrite assoc_L by apply _. apply types_of_replaced_ne; [done|]. set_solver.
  - intros Hp Hs.
    destruct Hrows as [(_ & _ & ->)|[(t1 & Hparse & _)|[(t2 & Hparse & _)|
                       (t1 & t2 & Hparse & _)]]]; [done|..].
    all: by apply parseInt_truthy in Hparse.
Qed.

(** An [update] that supplies only a secondary reference, to an existing
    type, replaces all the types of the pokemon by that one: the types it
    had, the primary one included, are gone. *)
Theorem update_secondary_only (id : Z) (data : UpdatePokemonInput) (s : Store) (t : Z) :
  WF s → is_Some (pokemon s !! id) → name_free_for s id data →
  ¬ supplied (u_primaryTypeId data) → resolves s (u_secondaryTypeId data) t →
  ∃ h s', PokemonService.update id data s = (Ok h, s')
          ∧ assignments s' id = {[ (id, t) ]}.
Proof.
  intros Hwf [old Hold] Hfree Hprimary Hsecondary.
  assert (references_ok s (u_primaryTypeId data) (u_secondaryTypeId data)) as Hrefs.
  { split_and!; [done|by exists t|].
    intros t' [[Hparse _] _]. by apply parseInt_truthy in Hparse. }
  destruct (update_returns id data s old Hwf Hold Hfree Hrefs) as (h & s' & Hrun & _).
  exists h, s'. split; [done|].
  destruct (update_effect _ _ _ _ _ Hrun) as (_ & _ & _ & _ & _ & _ & Hrows).
  destruct Hsecondary as [Hparse _]. pose proof (parseInt_truthy _ _ Hparse).
  unfold assignments.
  destruct Hrows as [(_ & ? & _)|[(t1 & Hparse1 & _)|[(t2 & Hparse2 & _ & ->)|
                     (t1 & t2 & Hparse1 & _)]]]; try done.
  - by apply parseInt_truthy in Hparse1.
  - assert (t2 = t) as -> by congruence. apply types_of_replaced_one.
  - by apply parseInt_truthy in Hparse1.
Qed.

(** An [update] that supplies references to two different existing types
    leaves the pokemon with exactly these two types. *)
Theorem update_both_references (id : Z) (data : UpdatePokemonInput) (s : Store) (t1 t2 : Z) :
  WF s → is_Some (pokemon s !! id) → name_free_for s id data →
  resolves s (u_primaryTypeId data) t1 → resolves s (u_secondaryTypeId data) t2 →
  t1 ≠ t2 →
  ∃ h s', PokemonService.update id data s = (Ok h, s')
          ∧ assignments s' id = {[ (id, t1); (id, t2) ]}.
Proof.
  intros Hwf [old Hold] Hfree Hprimary Hsecondary Hne.
  assert (references_ok s (u_primaryTypeId data) (u_secondaryTypeId data)) as Hrefs.
  { split_and!; [by exists t1|by exists t2|].
    intros t' [[Hparse1 _] [Hparse2 _]].
    destruct Hprimary as [? _], Hsecondary as [? _]. congruence. }
  destruct (update_returns id data s old Hwf Hold Hfree Hrefs) as (h & s' & Hrun & _).
  exists h, s'. split; [done|].
  destruct (update_effect _ _ _ _ _ Hrun) as (_ & _ & _ & _ & _ & _ & Hrows).
  destruct Hprimary as [Hparse1 _], Hsecondary as [Hparse2 _].
  pose proof (parseInt_truthy _ _ Hparse1). pose proof (parseInt_truthy _ _ Hparse2).
  unfold assignments.
  destruct Hrows as [(? & _)|[(? & _ & ? & _)|[(? & _ & ? & _)|
                     (t1' & t2' & Hparse1' & Hparse2' & _ & ->)]]]; try done.
  assert (t1' = t1) as -> by congruence. assert (t2' = t2) as -> by congruence.
  apply types_of_replaced_two.
Qed.

(** An [update] whose two references resolve to the same type is
    rejected by the unique key of the join table; the transaction is rolled
    back, so the pokemon keeps the row and the types it had. *)
Theorem update_equal_references (id : Z) (data : UpdatePokemonInput) (s : Store) (t : Z) :
  WF s → is_Some (pokemon s !! id) → name_free_for s id data →
  resolves s (u_primaryTypeId data) t → resolves s (u_secondaryTypeId data) t →
  PokemonService.update id data s = (Err (P2002 PokemonType_pokemonId_typeId), s).
Proof.
  intros Hwf [old Hold] Hfree [Hparse1 Htype] [Hparse2 _].
  pose proof (parseInt_truthy _ _ Hparse1). pose proof (parseInt_truthy _ _ Hparse2).
  destruct s as [P T R n]. simpl in *.
  destruct (PokemonService.update id data _) as [r s'] eqn:Hrun. run.
  all: try by (exfalso; contradict_store).
  all: try by (exfalso; contradict_name).
  all: done.
Qed.

(** ** addType and removeType *)

Lemma addType_run pokemonId typeId s ty :
  is_Some (pokemon s !! pokemonId) → type s !! typeId = Some ty →
  (pokemonId, typeId) ∉ pokemonType s → (count s pokemonId < 2)%nat →
  PokemonService.addType pokemonId typeId s
  = (Ok (pokemonId, typeId, Some ty),
     set_pokemonType (λ rows, {[ (pokemonId, typeId) ]} ∪ rows) s).
Proof.
  intros Hpokemon Htype Hnew Hcount. unfold count, assignments in *.
  destruct s as [P T R n]. simpl in *.
  destruct (PokemonService.addType _ _ _) as [r s'] eqn:Hrun. run.
  all: try by (exfalso; contradict_store).
  by rewrite Htype.
Qed.

Lemma removeType_run pokemonId typeId s :
  is_Some (pokemon s !! pokemonId) → (pokemonId, typeId) ∈ pokemonType s →
  (2 ≤ count s pokemonId)%nat →
  PokemonService.removeType pokemonId typeId s
  = (Ok tt, set_pokemonType (λ rows, rows ∖ {[ (pokemonId, typeId) ]}) s).
Proof.
  intros Hpokemon Hin Hcount. unfold count, assignments in *.
  destruct s as [P T R n]. simpl in *.
  destruct (PokemonService.removeType _ _ _) as [r s'] eqn:Hrun. run.
  all: try by (exfalso; contradict_store).
  done.
Qed.

(** [addType] of an existing type that a pokemon with fewer than two
    types does not have returns the new row with the data of the type; the
    pokemon has one type more, the new one, and nothing else has changed. *)
Theorem addType_adds (pokemonId typeId : Z) (s : Store) (ty : string) :
  is_Some (pokemon s !! pokemonId) → type s !! typeId = Some ty →
  (pokemonId, typeId) ∉ pokemonType s → (count s pokemonId < 2)%nat →
  ∃ s', PokemonService.addType pokemonId typeId s = (Ok (pokemonId, typeId, Some ty), s')
        ∧ pokemonType s' = {[ (pokemonId, typeId) ]} ∪ pokemonType s
        ∧ pokemon s' = pokemon s ∧ type s' = type s
        ∧ count s' pokemonId = S (count s pokemonId)
        ∧ (∀ j, j ≠ pokemonId → assignments s' j = assignments s j).
Proof.
  intros Hpokemon Htype Hnew Hcount. eexists.
  split; [by apply addType_run|].
  unfold count, assignments. destruct s as [P T R n]. simpl in *. split_and!; try done.
  - by apply size_types_of_insert.
  - intros j Hne. by apply types_of_insert_ne.
Qed.

(** [removeType] of a type that a pokemon with at least two types has
    returns; the pokemon has that type no more and one type less, and
    nothing else has changed. *)
Theorem removeType_removes (pokemonId typeId : Z) (s : Store) :
  is_Some (pokemon s !! pokemonId) → (pokemonId, typeId) ∈ pokemonType s →
  (2 ≤ count s pokemonId)%nat →
  ∃ s', PokemonService.removeType pokemonId typeId s = (Ok tt, s')
        ∧ pokemonType s' = pokemonType s ∖ {[ (pokemonId, typeId) ]}
        ∧ pokemon s' = pokemon s ∧ type s' = type s
        ∧ S (count s' pokemonId) = count s pokemonId
        ∧ (∀ j, j ≠ pokemonId → assignments s' j = assignments s j).
Proof.
  intros Hpokemon Hin Hcount. eexists.
  split; [by apply removeType_run|].
  unfold count, assignments. destruct s as [P T R n]. simpl in *. split_and!; try done.
  - symmetry. by apply size_types_of_delete.
  - intros j Hne. by apply types_of_delete_ne.
Qed.

Lemma addType_effect pokemonId typeId s s' row :
  PokemonService.addType pokemonId typeId s = (Ok row, s') →
  is_Some (pokemon s !! pokemonId) ∧ is_Some (type s !! typeId)
  ∧ ((pokemonId, typeId) ∉ pokemonType s)
  ∧ (count s pokemonId < 2)%nat
  ∧ s' = set_pokemonType (λ rows, {[ (pokemonId, typeId) ]} ∪ rows) s.
Proof.
  intros Hrun. unfold count, assignments. destruct s as [P T R n]. run.
  match goal with H : (2 <=? _) = false |- _ => apply Z.leb_gt in H end.
  split_and!; try done; [by eexists..|lia].
Qed.

Lemma removeType_effect pokemonId typeId s s' :
  PokemonService.removeType pokemonId typeId s = (Ok tt, s') →
  is_Some (pokemon s !! pokemonId)
  ∧ ((pokemonId, typeId) ∈ pokemonType s)
  ∧ (2 ≤ count s pokemonId)%nat
  ∧ s' = set_pokemonType (λ rows, rows ∖ {[ (pokemonId, typeId) ]}) s.
Proof.
  intros Hrun. unfold count, assignments. destruct s as [P T R n]. run.
  match goal with H : (_ <=? 1) = false |- _ => apply Z.leb_gt in H end.
  split_and!; try done; [|lia].
  match goal with H : _ <$> ?o = Some _ |- _ => by destruct o; [eexists|] end.
Qed.

(** [removeType] undoes [addType]: after an [addType] that returned on a
    pokemon with one type, [removeType] of the same type returns and the
    store is the one before the [addType]. *)
Theorem addType_then_removeType (pokemonId typeId : Z) (s s' : Store) (row : Z * Z * option string) :
  count s pokemonId = 1%nat →
  PokemonService.addType pokemonId typeId s = (Ok row, s') →
  PokemonService.removeType pokemonId typeId s' = (Ok tt, s).
Proof.
  intros Hcount Hrun.
  destruct (addType_effect _ _ _ _ _ Hrun) as (Hpokemon & _ & Hnew & _ & ->).
  unfold count, assignments in Hcount. destruct s as [P T R n]. simpl in *.
  rewrite removeType_run; simpl.
  - unfold set_pokemonType. simpl. do 2 f_equal. set_solver.
  - done.
  - set_solver.
  - unfold count, assignments. simpl. rewrite size_types_of_insert by done. lia.
Qed.

(** [addType] undoes [removeType]: after a [removeType] that returned on
    a consistent store where the pokemon had two types, [addType] of the
    same type returns and the store is the one before the [removeType]. *)
Theorem removeType_then_addType (pokemonId typeId : Z) (s s' : Store) :
  WF s → count s pokemonId = 2%nat →
  PokemonService.removeType pokemonId typeId s = (Ok tt, s') →
  ∃ row, PokemonService.addType pokemonId typeId s' = (Ok row, s).
Proof.
  intros Hwf Hcount Hrun.
  destruct (removeType_effect _ _ _ _ Hrun) as (Hpokemon & Hin & _ & ->).
  destruct (wf_typeId _ Hwf _ Hin) as [ty Htype].
  unfold count, assignments in Hcount. destruct s as [P T R n]. simpl in *.
  pose proof (size_types_of_delete _ _ _ Hin) as Hsize.
  exists (pokemonId, typeId, Some ty). rewrite (addType_run _ _ _ ty); simpl.
  - unfold set_pokemonType. simpl. do 2 f_equal. apply set_eq. intros r.
    destruct (decide (r = (pokemonId, typeId))); set_solver.
  - done.
  - done.
  - set_solver.
  - unfold count, assignments. simpl. lia.
Qed.

(** ** findMany *)

(** What a call of [findMany] that returns has computed. *)
Lemma findMany_effect filters s s' pg :
  PokemonService.findMany filters s = (Ok pg, s') →
  let page_ := default 1 (q_page filters) in
  let limit_ := default 10 (q_limit filters) in
  let rows := ordered_matches s (PokemonService.where_of filters) in
  s' = s
  ∧ where_PokemonType_some_typeId (PokemonService.where_of filters) ≠ Some None
  ∧ 0 ≤ (page_ - 1) * limit_
  ∧ data pg = hydrate s <$> window ((page_ - 1) * limit_) limit_ rows
  ∧ pagination pg
    = mkPagination page_ limit_ (Z.of_nat (length rows))
        (JS.ceil_div (Z.of_nat (length rows)) limit_)
        (page_ * limit_ <? Z.of_nat (length rows))
        (1 <? page_).
Proof.
  intros Hrun page_ limit_ rows. revert Hrun.
  unfold PokemonService.findMany, pokemon_findMany, pokemon_count, bind, gets, ret, throw.
  fold page_ limit_.
  destruct (decide (where_PokemonType_some_typeId (PokemonService.where_of filters)
                    = Some None)) as [|Hwhere]; [done|].
  destruct ((page_ - 1) * limit_ <? 0) eqn:Hskip; [done|].
  apply Z.ltb_ge in Hskip. intros [= <- <-]. done.
Qed.

Lemma elem_of_window {A} (skip take_ : Z) (rows : list A) x :
  x ∈ window skip take_ rows → x ∈ rows.
Proof.
  unfold window. destruct (0 <=? take_).
  - intros Hx. by apply subseteq_take, subseteq_drop in Hx.
  - rewrite elem_of_reverse. intros Hx.
    apply subseteq_take, subseteq_drop in Hx. by apply elem_of_reverse.
Qed.

(** Every entity of a page that [findMany] returns is what [findById]
    returns for its id: a pokemon of the store with its rows of the join
    table and their types. *)
Theorem findMany_findById (filters : PokemonQuery) (s s' : Store) (pg : Page)
    (h : PokemonWithTypes) :
  PokemonService.findMany filters s = (Ok pg, s') →
  h ∈ data pg →
  s' = s
  ∧ pokemon s !! pw_id h = Some (pw_pokemon h)
  ∧ PokemonService.findById (pw_id h) s = (Ok h, s).
Proof.
  intros Hrun Hh. apply findMany_effect in Hrun as (-> & _ & _ & Hdata & _).
  rewrite Hdata in Hh. apply list_elem_of_fmap in Hh as ([i p] & -> & Hkv).
  apply elem_of_window, elem_of_ordered_matches in Hkv as [Hp _]. simpl in *.
  split_and!; [done..|]. by apply findById_hydrate.
Qed.


Lemma ordered_matches_length s w :
  length (ordered_matches s w)
  = length (filter (λ kv, matches s w kv = true) (map_to_list (pokemon s))).
Proof. unfold ordered_matches. by rewrite (merge_sort_Permutation id_asc). Qed.

(** Without a non-empty [search] and a non-empty [typeId], [findMany]
    counts and lists the whole table: [total] is the number of pokemon of
    the store, for every page and limit that it accepts. *)
Theorem findMany_unfiltered (filters : PokemonQuery) (s s' : Store) (pg : Page) :
  JS.truthy_string (q_search filters) = false →
  JS.truthy_string (q_typeId filters) = false →
  PokemonService.findMany filters s = (Ok pg, s') →
  total (pagination pg) = Z.of_nat (size (pokemon s))
  ∧ (∀ i p, pokemon s !! i = Some p →
       (i, p) ∈ ordered_matches s (PokemonService.where_of filters)).
Proof.
  intros Hsearch Htype Hrun.
  apply findMany_effect in Hrun as (-> & _ & _ & _ & Hpagination).
  rewrite Hpagination. simpl.
  assert (∀ kv, matches s (PokemonService.where_of filters) kv = true) as Hall.
  { intros kv. unfold matches, PokemonService.where_of. simpl.
    by rewrite Hsearch, Htype. }
  split.
  - rewrite ordered_matches_length. f_equal.
    rewrite <-length_map_to_list. f_equal.
    induction (map_to_list (pokemon s)) as [|kv l IH]; [done|].
    rewrite filter_cons_True by apply Hall. by rewrite IH.
  - intros i p Hp. apply elem_of_ordered_matches. split; [done|]. apply Hall.
Qed.

Lemma ordered_matches_NoDup s w : NoDup (ordered_matches s w).*1.
Proof.
  unfold ordered_matches. rewrite (merge_sort_Permutation id_asc).
  apply (sublist_NoDup _ (map_to_list (pokemon s)).*1);
    [apply NoDup_fst_map_to_list | apply fmap_sublist, sublist_filter].
Qed.

(** [findMany] returns for a page and a limit from 1 on and a [typeId]
    that is empty or a number. *)
Lemma findMany_returns filters s :
  let page_ := default 1 (q_page filters) in
  let limit_ := default 10 (q_limit filters) in
  let rows := ordered_matches s (PokemonService.where_of filters) in
  1 ≤ page_ → 1 ≤ limit_ →
  (supplied (q_typeId filters) → is_Some (PokemonService.parseInt (q_typeId filters))) →
  ∃ pg, PokemonService.findMany filters s = (Ok pg, s)
        ∧ data pg = hydrate s <$>
            take (Z.to_nat limit_) (drop (Z.to_nat ((page_ - 1) * limit_)) rows).
Proof.
  intros page_ limit_ rows Hpage Hlimit Htype.
  assert (where_PokemonType_some_typeId (PokemonService.where_of filters) ≠ Some None)
    as Hwhere.
  { unfold PokemonService.where_of; simpl.
    destruct (JS.truthy_string (q_typeId filters)) eqn:Htruthy; [|done].
    destruct (Htype Htruthy) as [t ->]. done. }
  eexists. split.
  { unfold PokemonService.findMany, pokemon_findMany, pokemon_count, bind, gets, ret.
    fold page_ limit_. rewrite !decide_False by done.
    destruct ((page_ - 1) * limit_ <? 0) eqn:Hskip; [apply Z.ltb_lt in Hskip; nia|].
    reflexivity. }
  simpl. unfold window. destruct (0 <=? limit_) eqn:Htake; [done|].
  apply Z.leb_gt in Htake. lia.
Qed.

(** The pages of one query and limit cut the ordered matching rows into
    consecutive runs of [limit]: the row at position [n] is on page
    [n / limit + 1], at index [n mod limit], and on no other page. *)
Theorem findMany_position (filters : PokemonQuery) (s : Store) (n : nat)
    (kv : Z * Pokemon) :
  let page_ := default 1 (q_page filters) in
  let limit_ := default 10 (q_limit filters) in
  let rows := ordered_matches s (PokemonService.where_of filters) in
  1 ≤ page_ → 1 ≤ limit_ →
  (supplied (q_typeId filters) → is_Some (PokemonService.parseInt (q_typeId filters))) →
  rows !! n = Some kv →
  ∃ pg, PokemonService.findMany filters s = (Ok pg, s)
        ∧ (hydrate s kv ∈ data pg ↔ page_ = Z.of_nat n / limit_ + 1)
        ∧ (page_ = Z.of_nat n / limit_ + 1 →
           data pg !! Z.to_nat (Z.of_nat n mod limit_) = Some (hydrate s kv)).
Proof.
  intros page_ limit_ rows Hpage Hlimit Htype Hn.
  destruct (findMany_returns filters s Hpage Hlimit Htype) as (pg & Hrun & Hdata).
  fold page_ limit_ rows in Hdata.
  exists pg. split; [done|]. rewrite Hdata.
  pose proof (Z.div_mod (Z.of_nat n) limit_ ltac:(lia)) as Hdivmod.
  pose proof (Z.mod_pos_bound (Z.of_nat n) limit_ ltac:(lia)) as Hmod.
  assert (0 ≤ Z.of_nat n / limit_) as Hdiv by (apply Z.div_pos; lia).
  assert (∀ j, (hydrate s <$> take (Z.to_nat limit_)
                  (drop (Z.to_nat ((page_ - 1) * limit_)) rows)) !! j
               = Some (hydrate s kv) →
               n = (Z.to_nat ((page_ - 1) * limit_) + j)%nat ∧ (j < Z.to_nat limit_)%nat)
    as Hindex.
  { intros j Hj. rewrite list_lookup_fmap in Hj.
    destruct (take _ _ !! j) as [kv'|] eqn:Hkv'; [|done].
    injection Hj as Hfst _ _.
    apply lookup_take_Some in Hkv' as [Hkv' Hlt]. rewrite lookup_drop in Hkv'.
    split; [|done].
    eapply (NoDup_lookup _ _ _ kv.1 (ordered_matches_NoDup s (PokemonService.where_of filters))).
    - fold rows. by rewrite list_lookup_fmap, Hn.
    - fold rows. by rewrite list_lookup_fmap, Hkv', <-Hfst. }
  split; [split|].
  - intros [j Hj]%list_elem_of_lookup. apply Hindex in Hj as [-> Hj].
    assert (Z.of_nat (Z.to_nat ((page_ - 1) * limit_) + j)
            = limit_ * (page_ - 1) + Z.of_nat j) as -> by nia.
    rewrite Z.mul_comm, Z.div_add_l by lia.
    rewrite Z.div_small by lia. lia.
  - intros Heq. apply list_elem_of_lookup. exists (Z.to_nat (Z.of_nat n mod limit_)).
    rewrite list_lookup_fmap, lookup_take_lt by lia. rewrite lookup_drop.
    replace (Z.to_nat ((page_ - 1) * limit_) + Z.to_nat (Z.of_nat n mod limit_))%nat
      with n by nia.
    by rewrite Hn.
  - intros Heq.
    rewrite list_lookup_fmap, lookup_take_lt by lia. rewrite lookup_drop.
    replace (Z.to_nat ((page_ - 1) * limit_) + Z.to_nat (Z.of_nat n mod limit_))%nat
      with n by nia.
    by rewrite Hn.
Qed.

(** With [limit] zero and a page from 1 on, [findMany] returns an empty
    page whose [totalPages] is no integer: [Infinity] when a row matches
    and [NaN] when none does; [hasNext] tells whether a row matches. *)
Theorem findMany_zero_limit (filters : PokemonQuery) (s : Store) :
  let rows := ordered_matches s (PokemonService.where_of filters) in
  q_limit filters = Some 0 →
  (supplied (q_typeId filters) → is_Some (PokemonService.parseInt (q_typeId filters))) →
  ∃ pg, PokemonService.findMany filters s = (Ok pg, s)
        ∧ data pg = []
        ∧ total (pagination pg) = Z.of_nat (length rows)
        ∧ totalPages (pagination pg)
          = (if decide (rows = []) then JS.NaN else JS.Infinity)
        ∧ (hasNext (pagination pg) = true ↔ rows ≠ []).
Proof.
  intros rows Hlimit Htype.
  assert (where_PokemonType_some_typeId (PokemonService.where_of filters) ≠ Some None)
    as Hwhere.
  { unfold PokemonService.where_of; simpl.
    destruct (JS.truthy_string (q_typeId filters)) eqn:Htruthy; [|done].
    destruct (Htype Htruthy) as [t ->]. done. }
  eexists. split.
  { unfold PokemonService.findMany, pokemon_findMany, pokemon_count, bind, gets, ret.
    rewrite Hlimit. simpl. rewrite !decide_False by done.
    rewrite Z.mul_0_r. simpl. reflexivity. }
  simpl. fold rows. split_and!; try done.
  - unfold JS.ceil_div. destruct rows; simpl; done.
  - rewrite Z.mul_0_r. destruct rows; simpl; [done|].
    split; [done|]. intros _. apply Z.ltb_lt. lia.
Qed.

(** * The validation middleware *)

Section validation.
Context {V E : Type}.
Implicit Types (schema : Validation.Schema V E) (type : option Validation.ValidationType).
Implicit Types (req : Validation.TypedRequest V) (next : Validation.NextFunction V E).

Lemma get_set (t t' : Validation.ValidationType) (v : V) vd :
  Validation.get t' (Validation.set t v vd)
  = if decide (t' = t) then Some v else Validation.get t' vd.
Proof. by destruct t, t'. Qed.

(** The request after a validation that the schema accepted. *)
Lemma validate_request schema type req next (v : V) :
  schema (Validation.dataToValidate (default Validation.Body type) req) = inl v →
  Validation.request (Validation.validate schema type req next)
  = Validation.mkTypedRequest (Validation.body req) (Validation.params req)
      (Validation.query req)
      (Some (Validation.set (default Validation.Body type) v
               (default (Validation.mkValidatedData None None None)
                  (Validation.validatedData req))))
  ∧ Validation.next_called (Validation.validate schema type req next) = true.
Proof.
  intros Hparse. unfold Validation.validate. rewrite Hparse.
  match goal with |- context [next ?r] => by destruct (next r) as [[?|?]|] end.
Qed.

Lemma getValidatedData_set req (t t' : Validation.ValidationType) (v : V) :
  Validation.getValidatedData
    (Validation.mkTypedRequest (Validation.body req) (Validation.params req)
       (Validation.query req)
       (Some (Validation.set t v
                (default (Validation.mkValidatedData None None None)
                   (Validation.validatedData req)))))
    (Some t')
  = if decide (t' = t) then Some v else Validation.getValidatedData req (Some t').
Proof.
  unfold Validation.getValidatedData. simpl. rewrite get_set.
  destruct (decide (t' = t)); [done|]. by destruct (Validation.validatedData req), t'.
Qed.

(** What a run of the middleware does, whatever the schema and the rest
    of the chain do: it calls [next] exactly when the schema accepts; it
    sends no response exactly when the schema accepts and [next] does not
    throw; a response that it sends is a failure with status 400 and a
    list of errors, or with status 500, no list and the error written to
    the console; it never changes the body, the parameters or the query of
    the request, and it leaves the whole request as it is when the schema
    does not accept. *)
Theorem validate_outcome schema type req next :
  let out := Validation.validate schema type req next in
  let input := Validation.dataToValidate (default Validation.Body type) req in
  (Validation.next_called out = true ↔ ∃ v, schema input = inl v)
  ∧ (Validation.response out = None
     ↔ ∃ v, schema input = inl v ∧ next (Validation.request out) = None)
  ∧ (∀ r, Validation.response out = Some r →
       Validation.rb_success (Validation.json r) = false
       ∧ ((Validation.status r = 400
           ∧ is_Some (Validation.rb_errors (Validation.json r))
           ∧ Validation.logged out = None)
          ∨ (Validation.status r = 500
             ∧ Validation.rb_errors (Validation.json r) = None
             ∧ is_Some (Validation.logged out))))
  ∧ Validation.body (Validation.request out) = Validation.body req
  ∧ Validation.params (Validation.request out) = Validation.params req
  ∧ Validation.query (Validation.request out) = Validation.query req
  ∧ (Validation.next_called out = false → Validation.request out = req).
Proof.
  intros out input. subst out. unfold Validation.validate. fold input.
  destruct (schema input) as [v|[issues|error]] eqn:Hparse; simpl.
  - match goal with |- context [next ?r] => destruct (next r) as [[issues|error]|] eqn:Hnext end;
      simpl; rewrite ?Hnext; split_and!; try done; try naive_solver.
  - split_and!; try done; try naive_solver.
  - split_and!; try done; try naive_solver.
Qed.

(** When the schema accepts, [getValidatedData] reads back from the
    request exactly what the schema returned, under the type that was
    validated; what was stored under the two other types is as before;
    and [next] has been called. *)
Theorem validate_round_trip schema type req next (v : V) :
  schema (Validation.dataToValidate (default Validation.Body type) req) = inl v →
  let out := Validation.validate schema type req next in
  Validation.getValidatedData (Validation.request out) type = Some v
  ∧ (∀ t, t ≠ default Validation.Body type →
       Validation.getValidatedData (Validation.request out) (Some t)
       = Validation.getValidatedData req (Some t))
  ∧ Validation.next_called out = true.
Proof.
  intros Hparse out.
  destruct (validate_request schema type req next v Hparse) as [Hrequest Hcalled].
  fold out in Hrequest, Hcalled. rewrite Hrequest. split_and!; [| |done].
  - pose proof (getValidatedData_set req (default Validation.Body type)
                  (default Validation.Body type) v) as Hget.
    rewrite decide_True in Hget by done. by destruct type.
  - intros t Ht. by rewrite getValidatedData_set, decide_False.
Qed.

(** Two middlewares one after the other: the second validates the part
    of the request as it arrived, not what the first one stored; after
    both, the request carries what the second schema returned under its
    type, what the first returned under its type when the types differ,
    and under the third type what it carried before. *)
Theorem validate_chain schema1 schema2 (type1 type2 : Validation.ValidationType)
    req next1 next2 (v1 v2 : V) :
  schema1 (Validation.dataToValidate type1 req) = inl v1 →
  schema2 (Validation.dataToValidate type2 req) = inl v2 →
  let out1 := Validation.validate schema1 (Some type1) req next1 in
  let out2 := Validation.validate schema2 (Some type2) (Validation.request out1) next2 in
  Validation.getValidatedData (Validation.request out2) (Some type2) = Some v2
  ∧ (type1 ≠ type2 →
     Validation.getValidatedData (Validation.request out2) (Some type1) = Some v1)
  ∧ (∀ t, t ≠ type1 → t ≠ type2 →
       Validation.getValidatedData (Validation.request out2) (Some t)
       = Validation.getValidatedData req (Some t)).
Proof.
  intros Hparse1 Hparse2 out1 out2.
  destruct (validate_request schema1 (Some type1) req next1 v1 Hparse1) as [Hrequest1 _].
  fold out1 in Hrequest1.
  assert (Validation.dataToValidate type2 (Validation.request out1)
          = Validation.dataToValidate type2 req) as Hsame.
  { rewrite Hrequest1. by destruct type2. }
  rewrite <-Hsame in Hparse2.
  destruct (validate_request schema2 (Some type2) (Validation.request out1) next2 v2
              Hparse2) as [Hrequest2 _].
  fold out2 in Hrequest2. rewrite Hrequest2. simpl.
  split_and!.
  - by rewrite getValidatedData_set, decide_True.
  - intros Hne. rewrite getValidatedData_set, decide_False by done.
    by rewrite Hrequest1, getValidatedData_set, decide_True.
  - intros t Ht1 Ht2. rewrite getValidatedData_set, decide_False by done.
    by rewrite Hrequest1, getValidatedData_set, decide_False.
Qed.

(** When the schema throws, [next] is not called and the request is as it
    was.  For a [ZodError] the response has status 400, the message
    ["Dados de entrada inválidos"] and one error for each issue, in the
    order of the issues, with the path of the issue joined by dots as its
    field (the empty string for an issue at the root); nothing is written
    to the console.  For any other error the response has status 500, the
    message ["Erro interno do servidor"] and no list of errors, and the
    error is written to the console. *)
Theorem validate_rejects schema type req next (error : Validation.Thrown E) :
  schema (Validation.dataToValidate (default Validation.Body type) req) = inr error →
  let out := Validation.validate schema type req next in
  Validation.next_called out = false
  ∧ Validation.request out = req
  ∧ (∀ issues, error = Validation.ZodError issues →
       ∃ errors,
         Validation.response out
         = Some (Validation.mkResponse 400
                   (Validation.mkResponseBody false "Dados de entrada inválidos"
                      (Some errors)))
         ∧ Validation.logged out = None
         ∧ length errors = length issues
         ∧ (∀ i issue, issues !! i = Some issue →
              ∃ e, errors !! i = Some e
                   ∧ Validation.em_field e
                     = Validation.join "." (Validation.path issue)
                   ∧ (Validation.path issue = [] → Validation.em_field e = "")
                   ∧ Validation.em_message e = Validation.message issue
                   ∧ Validation.em_code e = Validation.code issue))
  ∧ (∀ e, error = Validation.Other e →
       Validation.response out
       = Some (Validation.mkResponse 500
                 (Validation.mkResponseBody false "Erro interno do servidor" None))
       ∧ Validation.logged out = Some e).
Proof.
  intros Hparse out. subst out. unfold Validation.validate. rewrite Hparse.
  split_and!; [by destruct error..| |].
  - intros issues ->. simpl. eexists. split_and!; [done..| |].
    + by rewrite length_fmap.
    + intros i issue Hissue. rewrite list_lookup_fmap, Hissue. simpl.
      eexists. split_and!; try done. simpl. by intros ->.
  - by intros e ->.
Qed.

(** The call of [next] is inside the [try] block: when the schema accepts
    and the call of [next] throws, the middleware answers as for an error
    of the schema (status 400 for a [ZodError], 500 and the console for any
    other error), although [next] has been called and the request already
    carries the validated data. *)
Theorem validate_next_throws schema type req next (v : V) (error : Validation.Thrown E) :
  schema (Validation.dataToValidate (default Validation.Body type) req) = inl v →
  next (Validation.request (Validation.validate schema type req next)) = Some error →
  let out := Validation.validate schema type req next in
  Validation.next_called out = true
  ∧ Validation.getValidatedData (Validation.request out) type = Some v
  ∧ (∀ issues, error = Validation.ZodError issues →
       ∃ r, Validation.response out = Some r ∧ Validation.status r = 400
            ∧ Validation.logged out = None)
  ∧ (∀ e, error = Validation.Other e →
       ∃ r, Validation.response out = Some r ∧ Validation.status r = 500
            ∧ Validation.logged out = Some e).
Proof.
  intros Hparse Hnext out.
  destruct (validate_request schema type req next v Hparse) as [Hrequest0 Hcalled].
  fold out in Hrequest0, Hcalled, Hnext.
  assert (Validation.getValidatedData (Validation.request out) type = Some v) as Hget.
  { rewrite Hrequest0.
    pose proof (getValidatedData_set req (default Validation.Body type)
                  (default Validation.Body type) v) as Hget.
    rewrite decide_True in Hget by done. by destruct type. }
  assert (∃ req', Validation.request out = req'
                  ∧ out = match next req' with
                          | None => Validation.mkOutcome req' true None None
                          | Some error => Validation.catch error req' true
                          end) as (req' & Hrequest & Hout).
  { eexists. subst out. unfold Validation.validate. rewrite Hparse. simpl.
    split; [|reflexivity].
    match goal with |- context [next ?r] => by destruct (next r) as [[?|?]|] end. }
  rewrite Hrequest in Hnext. rewrite Hnext in Hout. rewrite Hout in *.
  split_and!; [done..| |].
  - intros issues ->. simpl. eauto.
  - intros e ->. simpl. eauto.
Qed.

End validation.

(** * The theorems on the sample stores and requests *)

Lemma Sample_empty_WF : WF Sample.empty.
Proof. apply Inv_empty. Qed.

Lemma Sample_two_WF : WF Sample.two.
Proof. apply Sample_two_Inv. Qed.

Lemma Sample_two_charizard_some : is_Some (pokemon Sample.two !! 1).
Proof. rewrite Sample_two_charizard. by eexists. Qed.

Lemma Sample_two_missing : pokemon Sample.two !! 7 = None.
Proof. vm_compute. reflexivity. Qed.

Lemma Sample_two_grass : type Sample.two !! 3 = Some "grass"%string.
Proof. vm_compute. reflexivity. Qed.

Lemma Sample_two_squirtle_not_grass : (2, 3) ∉ pokemonType Sample.two.
Proof. apply (bool_decide_unpack _). vm_compute. exact I. Qed.

Lemma Sample_two_flying : (1, 4) ∈ pokemonType Sample.two.
Proof. apply (bool_decide_unpack _). vm_compute. exact I. Qed.

Lemma Sample_two_count_2_lt : (count Sample.two 2 < 2)%nat.
Proof. rewrite Sample_two_count_2. lia. Qed.

Lemma Sample_two_count_1_le : (2 ≤ count Sample.two 1)%nat.
Proof. by rewrite Sample_two_count_1. Qed.

Lemma Sample_two_resolves (ref : string) t :
  JS.parseInt ref = Some t → t ∈ [1; 2; 3; 4] → resolves Sample.two (Some ref) t.
Proof. intros Hparse Ht. split; [exact Hparse|]. by apply Sample_two_type. Qed.

Lemma Sample_update_of_free primary secondary :
  name_free_for Sample.two 1 (Sample.update_of None primary secondary).
Proof. intros nm j q Hnm. discriminate Hnm. Qed.

Lemma Sample_two_first_page :
  ∃ pg h, PokemonService.findMany (Sample.query 1 10) Sample.two = (Ok pg, Sample.two)
          ∧ h ∈ data pg ∧ pw_id h = 1.
Proof.
  eexists _, _. split; [vm_compute; reflexivity|].
  split; [apply list_elem_of_here|reflexivity].
Qed.


Lemma Sample_twenty_five_row :
  ∃ kv, ordered_matches Sample.twenty_five
          (PokemonService.where_of (Sample.query 3 10)) !! 22%nat = Some kv
        ∧ kv.1 = 23.
Proof. eexists. split; [vm_compute; reflexivity|reflexivity]. Qed.

Lemma findById_read_model_witness :
  pokemon Sample.two !! 1 = Some Sample.charizard_row
  ∧ ∃ h, PokemonService.findById 1 Sample.two = (Ok h, Sample.two)
         ∧ pw_pokemon h = Sample.charizard_row
         ∧ length (pw_PokemonType h) = count Sample.two 1.
Proof.
  destruct (proj2 (findById_read_model 1 Sample.two) _ Sample_two_charizard)
    as (h & Hrun & _ & Hrow & _ & _ & Hlength & _).
  exact (conj Sample_two_charizard (ex_intro _ h (conj Hrun (conj Hrow Hlength)))).
Defined.

Lemma delete_removes_witness :
  is_Some (pokemon Sample.two !! 2)
  ∧ ∃ s', PokemonService.delete 2 Sample.two = (Ok tt, s')
          ∧ assignments s' 2 = ∅
          ∧ PokemonService.findById 2 s' = (Err PokemonNaoEncontrado, s').
Proof.
  destruct (proj2 (delete_removes 2 Sample.two) Sample_two_squirtle)
    as (s' & Hrun & _ & Hrows & _ & _ & Hfind).
  exact (conj Sample_two_squirtle (ex_intro _ s' (conj Hrun (conj Hrows Hfind)))).
Defined.

Lemma create_read_back_witness :
  WF Sample.empty
  ∧ ∃ h s', PokemonService.create Sample.charizard Sample.empty = (Ok h, s')
            ∧ pw_id h = pokemon_id_seq Sample.empty
            ∧ PokemonService.findById (pw_id h) s' = (Ok h, s').
Proof.
  destruct (PokemonService.create Sample.charizard Sample.empty) as [[h|e] s'] eqn:Hrun;
    [|vm_compute in Hrun; discriminate Hrun].
  destruct (create_read_back Sample.charizard Sample.empty s' h Sample_empty_WF Hrun)
    as (Hid & _ & _ & _ & Hfind & _).
  exact (conj Sample_empty_WF (ex_intro _ h (ex_intro _ s' (conj eq_refl (conj Hid Hfind))))).
Defined.

Lemma create_missing_type_witness :
  (∀ i p, pokemon Sample.empty !! i = Some p →
          name p ≠ c_name (mkCreatePokemonInput "Bulbasaur" None None None None
                             45 49 49 45 "9" None))
  ∧ dangling Sample.empty (Some "9"%string)
  ∧ PokemonService.create
      (mkCreatePokemonInput "Bulbasaur" None None None None 45 49 49 45 "9" None)
      Sample.empty
    = (Err TipoPrimarioNaoEncontrado, Sample.empty).
Proof.
  assert (∀ i p, pokemon Sample.empty !! i = Some p →
                 name p ≠ c_name (mkCreatePokemonInput "Bulbasaur" None None None None
                                    45 49 49 45 "9" None)) as Hfree.
  { intros i p Hp. simpl in Hp. by rewrite lookup_empty in Hp. }
  assert (dangling Sample.empty (Some "9"%string)) as Hdangling.
  { exists 9. split; vm_compute; reflexivity. }
  exact (conj Hfree (conj Hdangling
    (proj1 (create_missing_type
              (mkCreatePokemonInput "Bulbasaur" None None None None 45 49 49 45 "9" None)
              Sample.empty Hfree) Hdangling))).
Defined.

Lemma thrown_leaves_tables_witness :
  thrown (AddType 1 3) Sample.two = Some MaximoDoisTipos
  ∧ pokemon (run_op (AddType 1 3) Sample.two) = pokemon Sample.two
  ∧ pokemonType (run_op (AddType 1 3) Sample.two) = pokemonType Sample.two.
Proof.
  assert (thrown (AddType 1 3) Sample.two = Some MaximoDoisTipos) as Hthrown
    by (vm_compute; reflexivity).
  destruct (thrown_leaves_tables (AddType 1 3) Sample.two MaximoDoisTipos Hthrown)
    as (Hpokemon & Hrows & _).
  exact (conj Hthrown (conj Hpokemon Hrows)).
Defined.

Lemma missing_pokemon_witness :
  pokemon Sample.two !! 7 = None
  ∧ PokemonService.delete 7 Sample.two = (Err PokemonNaoEncontrado, Sample.two)
  ∧ PokemonService.addType 7 1 Sample.two = (Err PokemonNaoEncontrado, Sample.two).
Proof.
  destruct (missing_pokemon 7 Sample.two Sample_two_missing)
    as (_ & _ & Hdelete & HaddType & _).
  exact (conj Sample_two_missing (conj Hdelete (HaddType 1))).
Defined.

Lemma schema_invariant_witness :
  WF Sample.empty ∧ Card Sample.empty
  ∧ (∀ i t, (i, t) ∈ pokemonType (run_ops Sample.session Sample.empty) →
            is_Some (pokemon (run_ops Sample.session Sample.empty) !! i)
            ∧ is_Some (type (run_ops Sample.session Sample.empty) !! t)).
Proof.
  destruct (Inv_empty Sample.types 1) as [Hwf Hcard].
  exact (conj Hwf (conj Hcard
    (proj2 (schema_invariant Sample.session Sample.empty Hwf Hcard)))).
Defined.

Lemma update_nothing_witness :
  WF Sample.two ∧ pokemon Sample.two !! 1 = Some Sample.charizard_row
  ∧ PokemonService.update 1 empty_update Sample.two
    = (Ok (hydrate Sample.two (1, Sample.charizard_row)), Sample.two).
Proof.
  exact (conj Sample_two_WF (conj Sample_two_charizard
    (update_nothing 1 Sample.two Sample.charizard_row Sample_two_WF Sample_two_charizard))).
Defined.

Lemma update_frame_witness :
  ∃ h s',
    PokemonService.update 1 (Sample.update_of (Some "Charmeleon"%string) None None)
      Sample.two = (Ok h, s')
    ∧ PokemonService.findById 1 s' = (Ok h, s')
    ∧ pokemonType s' = pokemonType Sample.two
    ∧ pokemon s' !! 2 = pokemon Sample.two !! 2.
Proof.
  destruct (PokemonService.update 1
              (Sample.update_of (Some "Charmeleon"%string) None None) Sample.two)
    as [[h|e] s'] eqn:Hrun; [|vm_compute in Hrun; discriminate Hrun].
  destruct (update_frame 1 (Sample.update_of (Some "Charmeleon"%string) None None)
              Sample.two s' h Hrun) as (_ & _ & Hfind & Hothers & Hrows & _).
  assert (¬ supplied None) as Hnone by (intros Hsupplied; discriminate Hsupplied).
  assert (2 ≠ 1) as Hne by lia.
  exact (ex_intro _ h (ex_intro _ s' (conj eq_refl (conj Hfind (conj (Hrows Hnone Hnone)
    (proj1 (Hothers 2 Hne))))))).
Defined.

Lemma update_secondary_only_witness :
  WF Sample.two ∧ is_Some (pokemon Sample.two !! 1)
  ∧ resolves Sample.two (Some "2"%string) 2
  ∧ ∃ h s',
      PokemonService.update 1 (Sample.update_of None None (Some "2"%string)) Sample.two
      = (Ok h, s')
      ∧ assignments s' 1 = {[ (1, 2) ]}.
Proof.
  assert (2 ∈ [1; 2; 3; 4]) as Hin by set_solver.
  pose proof (Sample_two_resolves "2" 2 eq_refl Hin) as Hresolves.
  assert (¬ supplied (u_primaryTypeId (Sample.update_of None None (Some "2"%string))))
    as Hnone by (intros Hsupplied; discriminate Hsupplied).
  exact (conj Sample_two_WF (conj Sample_two_charizard_some (conj Hresolves
    (update_secondary_only 1 (Sample.update_of None None (Some "2"%string)) Sample.two 2
       Sample_two_WF Sample_two_charizard_some (Sample_update_of_free _ _)
       Hnone Hresolves)))).
Defined.

Lemma update_both_references_witness :
  WF Sample.two ∧ is_Some (pokemon Sample.two !! 1)
  ∧ resolves Sample.two (Some "2"%string) 2 ∧ resolves Sample.two (Some "3"%string) 3
  ∧ ∃ h s',
      PokemonService.update 1
        (Sample.update_of None (Some "2"%string) (Some "3"%string)) Sample.two
      = (Ok h, s')
      ∧ assignments s' 1 = {[ (1, 2); (1, 3) ]}.
Proof.
  assert (2 ∈ [1; 2; 3; 4]) as Hin2 by set_solver.
  assert (3 ∈ [1; 2; 3; 4]) as Hin3 by set_solver.
  pose proof (Sample_two_resolves "2" 2 eq_refl Hin2) as Hresolves2.
  pose proof (Sample_two_resolves "3" 3 eq_refl Hin3) as Hresolves3.
  assert (2 ≠ 3) as Hne by lia.
  exact (conj Sample_two_WF (conj Sample_two_charizard_some (conj Hresolves2
    (conj Hresolves3
    (update_both_references 1
       (Sample.update_of None (Some "2"%string) (Some "3"%string)) Sample.two 2 3
       Sample_two_WF Sample_two_charizard_some (Sample_update_of_free _ _)
       Hresolves2 Hresolves3 Hne))))).
Defined.

Lemma update_equal_references_witness :
  WF Sample.two ∧ is_Some (pokemon Sample.two !! 1)
  ∧ resolves Sample.two (Some "2"%string) 2 ∧ resolves Sample.two (Some "02"%string) 2
  ∧ PokemonService.update 1
      (Sample.update_of None (Some "2"%string) (Some "02"%string)) Sample.two
    = (Err (P2002 PokemonType_pokemonId_typeId), Sample.two).
Proof.
  assert (2 ∈ [1; 2; 3; 4]) as Hin by set_solver.
  pose proof (Sample_two_resolves "2" 2 eq_refl Hin) as Hresolves.
  pose proof (Sample_two_resolves "02" 2 eq_refl Hin) as Hresolves'.
  exact (conj Sample_two_WF (conj Sample_two_charizard_some (conj Hresolves
    (conj Hresolves'
    (update_equal_references 1
       (Sample.update_of None (Some "2"%string) (Some "02"%string)) Sample.two 2
       Sample_two_WF Sample_two_charizard_some (Sample_update_of_free _ _)
       Hresolves Hresolves'))))).
Defined.

Lemma addType_adds_witness :
  is_Some (pokemon Sample.two !! 2) ∧ type Sample.two !! 3 = Some "grass"%string
  ∧ ((2, 3) ∉ pokemonType Sample.two) ∧ (count Sample.two 2 < 2)%nat
  ∧ ∃ s', PokemonService.addType 2 3 Sample.two = (Ok (2, 3, Some "grass"%string), s')
          ∧ count s' 2 = S (count Sample.two 2).
Proof.
  destruct (addType_adds 2 3 Sample.two "grass" Sample_two_squirtle Sample_two_grass
              Sample_two_squirtle_not_grass Sample_two_count_2_lt)
    as (s' & Hrun & _ & _ & _ & Hcount & _).
  exact (conj Sample_two_squirtle (conj Sample_two_grass (conj Sample_two_squirtle_not_grass
    (conj Sample_two_count_2_lt (ex_intro _ s' (conj Hrun Hcount)))))).
Defined.

Lemma removeType_removes_witness :
  is_Some (pokemon Sample.two !! 1) ∧ ((1, 4) ∈ pokemonType Sample.two)
  ∧ (2 ≤ count Sample.two 1)%nat
  ∧ ∃ s', PokemonService.removeType 1 4 Sample.two = (Ok tt, s')
          ∧ pokemonType s' = pokemonType Sample.two ∖ {[ (1, 4) ]}.
Proof.
  destruct (removeType_removes 1 4 Sample.two Sample_two_charizard_some Sample_two_flying
              Sample_two_count_1_le) as (s' & Hrun & Hrows & _).
  exact (conj Sample_two_charizard_some (conj Sample_two_flying (conj Sample_two_count_1_le
    (ex_intro _ s' (conj Hrun Hrows))))).
Defined.

Lemma addType_then_removeType_witness :
  count Sample.two 2 = 1%nat
  ∧ ∃ row s', PokemonService.addType 2 3 Sample.two = (Ok row, s')
              ∧ PokemonService.removeType 2 3 s' = (Ok tt, Sample.two).
Proof.
  destruct (PokemonService.addType 2 3 Sample.two) as [[row|e] s'] eqn:Hrun;
    [|vm_compute in Hrun; discriminate Hrun].
  exact (conj Sample_two_count_2 (ex_intro _ row (ex_intro _ s' (conj eq_refl
    (addType_then_removeType 2 3 Sample.two s' row Sample_two_count_2 Hrun))))).
Defined.

Lemma removeType_then_addType_witness :
  WF Sample.two ∧ count Sample.two 1 = 2%nat
  ∧ ∃ s' row, PokemonService.removeType 1 4 Sample.two = (Ok tt, s')
              ∧ PokemonService.addType 1 4 s' = (Ok row, Sample.two).
Proof.
  destruct (PokemonService.removeType 1 4 Sample.two) as [[[]|e] s'] eqn:Hrun;
    [|vm_compute in Hrun; discriminate Hrun].
  destruct (removeType_then_addType 1 4 Sample.two s' Sample_two_WF Sample_two_count_1 Hrun)
    as [row Hback].
  exact (conj Sample_two_WF (conj Sample_two_count_1
    (ex_intro _ s' (ex_intro _ row (conj eq_refl Hback))))).
Defined.

Lemma findMany_findById_witness :
  ∃ pg h, PokemonService.findMany (Sample.query 1 10) Sample.two = (Ok pg, Sample.two)
          ∧ h ∈ data pg
          ∧ PokemonService.findById (pw_id h) Sample.two = (Ok h, Sample.two).
Proof.
  destruct Sample_two_first_page as (pg & h & Hrun & Hh & _).
  exact (ex_intro _ pg (ex_intro _ h (conj Hrun (conj Hh
    (proj2 (proj2 (findMany_findById (Sample.query 1 10) Sample.two Sample.two pg h
                     Hrun Hh))))))).
Defined.


Lemma findMany_unfiltered_witness :
  JS.truthy_string (q_search (Sample.query 1 10)) = false
  ∧ JS.truthy_string (q_typeId (Sample.query 1 10)) = false
  ∧ ∃ pg, PokemonService.findMany (Sample.query 1 10) Sample.two = (Ok pg, Sample.two)
          ∧ total (pagination pg) = Z.of_nat (size (pokemon Sample.two)).
Proof.
  destruct Sample_two_first_page as (pg & _ & Hrun & _).
  exact (conj eq_refl (conj eq_refl (ex_intro _ pg (conj Hrun
    (proj1 (findMany_unfiltered (Sample.query 1 10) Sample.two Sample.two pg
              eq_refl eq_refl Hrun)))))).
Defined.

Lemma findMany_position_witness :
  1 ≤ 3 ∧ 1 ≤ 10
  ∧ ∃ kv pg,
      ordered_matches Sample.twenty_five
        (PokemonService.where_of (Sample.query 3 10)) !! 22%nat = Some kv
      ∧ PokemonService.findMany (Sample.query 3 10) Sample.twenty_five
        = (Ok pg, Sample.twenty_five)
      ∧ hydrate Sample.twenty_five kv ∈ data pg.
Proof.
  assert (1 ≤ 3) as Hpage by lia.
  assert (1 ≤ 10) as Hlimit by lia.
  assert (supplied (q_typeId (Sample.query 3 10)) →
          is_Some (PokemonService.parseInt (q_typeId (Sample.query 3 10)))) as Htype
    by (intros Hsupplied; discriminate Hsupplied).
  destruct Sample_twenty_five_row as (kv & Hkv & _).
  destruct (findMany_position (Sample.query 3 10) Sample.twenty_five 22 kv
              Hpage Hlimit Htype Hkv) as (pg & Hrun & Hon & _).
  exact (conj Hpage (conj Hlimit (ex_intro _ kv (ex_intro _ pg (conj Hkv (conj Hrun
    (proj2 Hon eq_refl))))))).
Defined.

Lemma findMany_zero_limit_witness :
  q_limit (Sample.query 1 0) = Some 0
  ∧ ∃ pg, PokemonService.findMany (Sample.query 1 0) Sample.two = (Ok pg, Sample.two)
          ∧ data pg = [].
Proof.
  assert (supplied (q_typeId (Sample.query 1 0)) →
          is_Some (PokemonService.parseInt (q_typeId (Sample.query 1 0)))) as Htype
    by (intros Hsupplied; discriminate Hsupplied).
  destruct (findMany_zero_limit (Sample.query 1 0) Sample.two eq_refl Htype)
    as (pg & Hrun & Hdata & _).
  exact (conj eq_refl (ex_intro _ pg (conj Hrun Hdata))).
Defined.

Lemma validate_round_trip_witness :
  SampleRequest.nonNegative
    (Validation.dataToValidate (default Validation.Body None) SampleRequest.req) = inl 5
  ∧ Validation.getValidatedData
      (Validation.request
         (Validation.validate SampleRequest.nonNegative None SampleRequest.req
            SampleRequest.proceed)) None
    = Some 5.
Proof.
  exact (conj eq_refl
    (proj1 (validate_round_trip SampleRequest.nonNegative None SampleRequest.req
              SampleRequest.proceed 5 eq_refl))).
Defined.

Lemma validate_chain_witness :
  SampleRequest.nonNegative
    (Validation.dataToValidate Validation.Body SampleRequest.req) = inl 5
  ∧ SampleRequest.nonNegative
      (Validation.dataToValidate Validation.Query SampleRequest.req) = inl 0
  ∧ Validation.getValidatedData
      (Validation.request
         (Validation.validate SampleRequest.nonNegative (Some Validation.Query)
            (Validation.request
               (Validation.validate SampleRequest.nonNegative (Some Validation.Body)
                  SampleRequest.req SampleRequest.proceed))
            SampleRequest.proceed))
      (Some Validation.Body)
    = Some 5.
Proof.
  assert (Validation.Body ≠ Validation.Query) as Hne by discriminate.
  exact (conj eq_refl (conj eq_refl
    (proj1 (proj2 (validate_chain SampleRequest.nonNegative SampleRequest.nonNegative
                     Validation.Body Validation.Query SampleRequest.req
                     SampleRequest.proceed SampleRequest.proceed 5 0 eq_refl eq_refl))
       Hne))).
Defined.

Lemma validate_rejects_witness :
  SampleRequest.nonNegative
    (Validation.dataToValidate (default Validation.Body (Some Validation.Params))
       SampleRequest.req)
  = inr (Validation.ZodError
           [Validation.mkZodIssue [Validation.Key "id"] "Too small" "too_small"])
  ∧ Validation.next_called
      (Validation.validate SampleRequest.nonNegative (Some Validation.Params)
         SampleRequest.req SampleRequest.proceed) = false
  ∧ ∃ errors,
      Validation.response
        (Validation.validate SampleRequest.nonNegative (Some Validation.Params)
           SampleRequest.req SampleRequest.proceed)
      = Some (Validation.mkResponse 400
                (Validation.mkResponseBody false "Dados de entrada inválidos"
                   (Some errors)))
      ∧ length errors = 1%nat.
Proof.
  destruct (validate_rejects SampleRequest.nonNegative (Some Validation.Params)
              SampleRequest.req SampleRequest.proceed _ eq_refl)
    as (Hcalled & _ & Hzod & _).
  destruct (Hzod _ eq_refl) as (errors & Hresponse & _ & Hlength & _).
  exact (conj eq_refl (conj Hcalled (ex_intro _ errors (conj Hresponse Hlength)))).
Defined.

Lemma validate_next_throws_witness :
  SampleRequest.nonNegative
    (Validation.dataToValidate (default Validation.Body None) SampleRequest.req) = inl 5
  ∧ SampleRequest.failing
      (Validation.request
         (Validation.validate SampleRequest.nonNegative None SampleRequest.req
            SampleRequest.failing))
    = Some (Validation.Other "boom"%string)
  ∧ ∃ r, Validation.response
           (Validation.validate SampleRequest.nonNegative None SampleRequest.req
              SampleRequest.failing) = Some r
         ∧ Validation.status r = 500.
Proof.
  destruct (validate_next_throws SampleRequest.nonNegative None SampleRequest.req
              SampleRequest.failing 5 (Validation.Other "boom"%string) eq_refl eq_refl)
    as (_ & _ & _ & Hother).
  destruct (Hother "boom"%string eq_refl) as (r & Hresponse & Hstatus & _).
  exact (conj eq_refl (conj eq_refl (ex_intro _ r (conj Hresponse Hstatus)))).
Defined.

